(** * durable-apis: the stub-dispatch protocol and the tagged broadcast layer

    A shallow embedding of the TypeScript sources
    - durable-stub (createDurable, extendEnv, getDurableGet, stubFetch,
      createRequest, createResponse, transformResponse, shouldRetry), and
    - durable-ws (durableWS with sendTo, close and upgrade),
    followed by the properties of the specification that concern them.

    Conventions.  An async function is embedded as the function that maps its
    inputs to the way its promise settles: [Return v] for a promise that
    resolves with [v], [Throw e] for one that rejects with [e] (an await of a
    rejected promise throws, so both read the same).  Mutable objects are
    threaded as explicit state.  Function objects created at run time are
    heap locations, so that identity of functions is equality of locations. *)

From Stdlib Require Import ZArith String Ascii List Lia.
From stdpp Require Import base option list strings gmap pretty.

Local Open Scope string_scope.
Local Open Scope list_scope.

(** ** The JavaScript platform, as far as the sources use it *)

Module Js.

(** Values a [throw] or a rejected promise may carry.  [ErrorObject] is an
    instance of Error or of one of its subclasses (StatusError of
    itty-router-extras carries a status); [ThrownNull] and [ThrownUndefined]
    are a thrown null and a thrown undefined, which have no properties;
    [Thrown] is any other thrown value, given by its string form. *)
Inductive exn :=
| ErrorObject (name message : string) (status : option Z)
| Thrown (text : string)
| ThrownNull
| ThrownUndefined.

Definition TypeError (message : string) : exn :=
  ErrorObject "TypeError" message None.

Definition StatusError (status : Z) (message : string) : exn :=
  ErrorObject "StatusError" message (Some status).

(** [err + ''] : for an Error object this is Error.prototype.toString. *)
Definition exn_to_string (e : exn) : string :=
  match e with
  | ErrorObject name message _ =>
      if (name =? "")%string then message
      else if (message =? "")%string then name
      else name +:+ ": " +:+ message
  | Thrown text => text
  | ThrownNull => "null"
  | ThrownUndefined => "undefined"
  end.

(** How a call or an awaited promise completes. *)
Inductive completion (A : Type) :=
| Return (a : A)
| Throw (e : exn).
Arguments Return {A} a.
Arguments Throw {A} e.

#[global] Instance completion_ret : MRet completion := @Return.
#[global] Instance completion_bind : MBind completion :=
  fun A B f c => match c with Return a => f a | Throw e => Throw e end.
#[global] Instance completion_fmap : FMap completion :=
  fun A B f c => match c with Return a => Return (f a) | Throw e => Throw e end.

(** [err.status] and [err.message]: undefined on a thrown primitive; on a
    thrown null or undefined the property read itself throws a TypeError. *)
Definition exn_status (e : exn) : completion (option Z) :=
  match e with
  | ErrorObject _ _ status => Return status
  | Thrown _ => Return None
  | ThrownNull => Throw (TypeError "Cannot read properties of null (reading 'status')")
  | ThrownUndefined =>
      Throw (TypeError "Cannot read properties of undefined (reading 'status')")
  end.

Definition exn_message (e : exn) : completion (option string) :=
  match e with
  | ErrorObject _ message _ => Return (Some message)
  | Thrown _ => Return None
  | ThrownNull => Throw (TypeError "Cannot read properties of null (reading 'message')")
  | ThrownUndefined =>
      Throw (TypeError "Cannot read properties of undefined (reading 'message')")
  end.

(** [try { body } catch (err) { handler }] and [promise.catch(handler)]. *)
Definition try_catch {A} (body : completion A) (handler : exn -> completion A)
  : completion A :=
  match body with Return a => Return a | Throw e => handler e end.

(** Data values: what JSON text denotes, plus undefined and BigInt.  Numbers
    are the integers that a double holds exactly and prints in digits, those
    of magnitude up to 2^53. *)
#[warnings="-register-all"]
Inductive val :=
| VUndefined
| VNull
| VBool (b : bool)
| VNum (n : Z)
| VBigInt (n : Z)
| VStr (s : string)
| VArr (items : list val)
| VObj (fields : list (string * val)).

(** [s.includes(p)], also the test of a regular expression that is the
    literal [p]. *)
Fixpoint includes (p s : string) : bool :=
  String.prefix p s ||
  match s with
  | EmptyString => false
  | String _ rest => includes p rest
  end.

(** *** JSON.stringify on [val] *)

Definition quote_char : ascii := ascii_of_nat 34.
Definition backslash : ascii := ascii_of_nat 92.

Definition hex_digit (n : nat) : ascii :=
  ascii_of_nat (if (n <? 10)%nat then 48 + n else 87 + n).

Definition escape_char (c : ascii) : string :=
  let n := nat_of_ascii c in
  if (n =? 34)%nat then String backslash (String quote_char "")
  else if (n =? 92)%nat then String backslash (String backslash "")
  else if (n =? 8)%nat then String backslash "b"
  else if (n =? 9)%nat then String backslash "t"
  else if (n =? 10)%nat then String backslash "n"
  else if (n =? 12)%nat then String backslash "f"
  else if (n =? 13)%nat then String backslash "r"
  else if (n <? 32)%nat then
    String backslash ("u00" +:+ String (hex_digit (n / 16)) (String (hex_digit (n mod 16)) ""))
  else String c "".

Fixpoint escape (s : string) : string :=
  match s with
  | EmptyString => ""
  | String c rest => escape_char c +:+ escape rest
  end.

Definition quote (s : string) : string :=
  String quote_char (escape s +:+ String quote_char "").

(** JSON.stringify throws a TypeError on a BigInt, wherever it stands. *)
Fixpoint has_bigint (v : val) : bool :=
  match v with
  | VBigInt _ => true
  | VArr items => existsb has_bigint items
  | VObj fields => existsb (fun kv => has_bigint (snd kv)) fields
  | _ => false
  end.

Fixpoint json_text (v : val) : string :=
  match v with
  | VUndefined => "null"
  | VNull => "null"
  | VBool true => "true"
  | VBool false => "false"
  | VNum n => pretty n
  | VBigInt n => pretty n
  | VStr s => quote s
  | VArr items => "[" +:+ String.concat "," (List.map json_text items) +:+ "]"
  | VObj fields =>
      "{" +:+ String.concat ","
        ((fix members (l : list (string * val)) : list string :=
            match l with
            | [] => []
            | (_, VUndefined) :: rest => members rest
            | (k, x) :: rest => (quote k +:+ ":" +:+ json_text x) :: members rest
            end) fields) +:+ "}"
  end.

(** [JSON.stringify(v)]: undefined for undefined, a string otherwise. *)
Definition JSON_stringify (v : val) : completion (option string) :=
  if has_bigint v then Throw (TypeError "Do not know how to serialize a BigInt")
  else match v with
       | VUndefined => Return None
       | _ => Return (Some (json_text v))
       end.

(** [String(v)], used by the Response constructor on a body that is no
    string. *)
Fixpoint js_String (v : val) : string :=
  match v with
  | VUndefined => "undefined"
  | VNull => "null"
  | VBool true => "true"
  | VBool false => "false"
  | VNum n => pretty n
  | VBigInt n => pretty n
  | VStr s => s
  | VArr items =>
      String.concat ","
        (List.map (fun x => match x with
                            | VUndefined | VNull => ""
                            | _ => js_String x
                            end) items)
  | VObj _ => "[object Object]"
  end.

(** [...v] in an argument list. *)
Definition spread_args (v : val) : completion (list val) :=
  match v with
  | VArr items => Return items
  | VStr s => Return (List.map (fun c => VStr (String c "")) (list_ascii_of_string s))
  | _ => Throw (TypeError (js_String v +:+ " is not iterable"))
  end.

(** *** Headers, Request, Response *)

Definition lower_char (c : ascii) : ascii :=
  let n := nat_of_ascii c in
  if ((65 <=? n) && (n <=? 90))%nat then ascii_of_nat (n + 32) else c.

Fixpoint lower (s : string) : string :=
  match s with
  | EmptyString => ""
  | String c rest => String (lower_char c) (lower rest)
  end.

Definition Headers := list (string * string).

(** [headers.get(name)]: names compare without case; the values of repeated
    headers are joined. *)
Definition headers_get (h : Headers) (name : string) : option string :=
  match List.filter (fun kv => (lower (fst kv) =? lower name)%string) h with
  | [] => None
  | found => Some (String.concat ", " (List.map snd found))
  end.

Record Request := {
  req_url : string;
  req_method : string;
  req_headers : Headers;
  req_body : option string;
}.

(** A Response.  [resp_unreadable] is the error with which reading the body
    rejects (a body already used, a stream that breaks), if any;
    [resp_webSocket] is the client end a 101 response carries. *)
Record Response := {
  resp_status : Z;
  resp_headers : Headers;
  resp_body : option string;
  resp_unreadable : option exn;
  resp_webSocket : option nat;
}.

(** [new Response(body, { status })] for a string or null body and a status
    the constructor accepts. *)
Definition new_Response (body : option string) (status : Z) : Response :=
  {| resp_status := status; resp_headers := []; resp_body := body;
     resp_unreadable := None; resp_webSocket := None |}.

(** The statuses of responses that have no body. *)
Definition null_body_status (status : Z) : bool :=
  ((status =? 204) || (status =? 205) || (status =? 304))%Z.

(** [new Response(body, { status, headers })] for any status: the
    constructor throws a RangeError for a status outside 200..599, and a
    TypeError for a body together with a null body status. *)
Definition construct_Response (body : option string) (status : Z) (headers : Headers)
  : completion Response :=
  if negb ((200 <=? status) && (status <=? 599))%Z then
    Throw (ErrorObject "RangeError"
             "Responses may only be constructed with status codes in the range 200 to 599, inclusive."
             None)
  else
    match body with
    | Some _ =>
        if null_body_status status then
          Throw (TypeError "Response with null body status cannot have body")
        else Return {| resp_status := status; resp_headers := headers;
                       resp_body := body; resp_unreadable := None;
                       resp_webSocket := None |}
    | None => Return {| resp_status := status; resp_headers := headers;
                        resp_body := None; resp_unreadable := None;
                        resp_webSocket := None |}
    end.

(** [new Response(data)] for an arbitrary value. *)
Definition Response_of_val (data : val) : Response :=
  new_Response
    match data with
    | VUndefined | VNull => None
    | _ => Some (js_String data)
    end 200.

(** [await response.text()] *)
Definition response_text (r : Response) : completion string :=
  match resp_unreadable r with
  | Some e => Throw e
  | None => Return (default "" (resp_body r))
  end.

(** What a function of the program may receive or return: data, a Request,
    a Response. *)
Inductive any :=
| Data (v : val)
| ARequest (r : Request)
| AResponse (r : Response).

(** A Request or a Response inside an argument array has no enumerable
    property of its own: JSON sees an empty object. *)
Definition array_of (args : list any) : val :=
  VArr (List.map (fun a => match a with Data v => v | _ => VObj [] end) args).

(** Function objects.  [Builtin] is a function of the platform, [Defined] one
    of the code that uses the library, [Allocated] a closure that the library
    creates at run time, named by its heap location. *)
Inductive fn :=
| Builtin (name : string)
| Defined (id : nat)
| Allocated (loc : nat).

(** The value of a property. *)
Inductive pval :=
| PFun (f : fn)
| PVal (v : val).

Definition is_function (p : option pval) : bool :=
  match p with Some (PFun _) => true | _ => false end.

(** Object.prototype, which every object literal inherits.  [__proto__] is an
    accessor; it yields an object, which is not callable. *)
Definition Object_prototype_methods : list string :=
  [ "constructor"; "hasOwnProperty"; "isPrototypeOf"; "propertyIsEnumerable";
    "toLocaleString"; "toString"; "valueOf";
    "__defineGetter__"; "__defineSetter__"; "__lookupGetter__"; "__lookupSetter__" ].

Definition Object_prototype_names : list string :=
  (Object_prototype_methods ++ [ "__proto__" ])%list.

Definition Object_prototype : gmap string pval :=
  <[ "__proto__" := PVal (VObj []) ]>
    (list_to_map (List.map (fun n => (n, PFun (Builtin ("Object.prototype." +:+ n))))
                    Object_prototype_methods)).

(** An object: its own properties, each enumerable or not, and what its
    prototype chain provides. *)
Record prop := { p_value : pval; p_enumerable : bool }.

Record obj := {
  own : gmap string prop;
  inherited : gmap string pval;
}.

(** [o[k]] *)
Definition obj_get (o : obj) (k : string) : option pval :=
  match own o !! k with
  | Some p => Some (p_value p)
  | None => inherited o !! k
  end.

(** [{ ...o }]: a new object literal with the own enumerable properties of
    [o], read by value. *)
Definition obj_spread (o : obj) : obj :=
  {| own := (fun p => {| p_value := p_value p; p_enumerable := true |})
              <$> filter (fun kv => p_enumerable (snd kv) = true) (own o);
     inherited := Object_prototype |}.

(** *** The host: what the Durable Objects runtime and the code that uses
    the library contribute *)

(** An identifier of an actor instance. *)
Record DurableObjectId := { id_text : string }.

(** A DurableObjectStub as the namespace hands it out: the properties that
    [prop in obj] finds on it, own or inherited, and the instance it
    addresses. *)
Record Handle := {
  h_props : gmap string pval;
  h_id : DurableObjectId;
}.

Class Host := {
  (** the state of the runtime and of the network *)
  World : Type;
  (** JSON.parse, which throws a SyntaxError on text that is no JSON *)
  JSON_parse : string -> completion val;
  (** [new URL(url).pathname] *)
  url_pathname : string -> string;
  (** [obj.fetch(...args)] on a handle, with all its arguments: the promise
      resolves with a Response or rejects *)
  fetch_call : Handle -> list any -> World -> completion Response * World;
  (** a call of a function of the actor, awaited *)
  call_fn : fn -> list any -> completion any;
  (** whether a function of the actor returns a promise *)
  returns_promise : fn -> bool;
}.

(** [obj.fetch(request)]: the fetch of a handle called with one Request. *)
Definition handle_fetch `{Host} (obj : Handle) (request : Request) (w : World)
  : completion Response * World :=
  fetch_call obj [ARequest request] w.

(** A DurableObjectNamespace. *)
Record Namespace `{Host} := {
  newUniqueId : World -> DurableObjectId * World;
  idFromName : string -> DurableObjectId;
  idFromString : string -> completion DurableObjectId;
  get : DurableObjectId -> val -> Handle;
}.

End Js.

(** ** itty-router and itty-router-extras, as far as createDurable uses them *)

Module Itty.
Import Js.

(** [json(body, { status })] of itty-router-extras: a body whose typeof is
    object is serialised and sent as JSON; any other body goes to the
    Response constructor as it is. *)
Definition json (body : val) (status : Z) : completion Response :=
  match body with
  | VNull | VArr _ | VObj _ =>
      text ← JSON_stringify body;
      construct_Response text status
        [("Content-Type", "application/json; charset=utf-8")]
  | VUndefined => construct_Response None status []
  | _ => construct_Response (Some (js_String body)) status []
  end.

(** [error(status, content)] of itty-router-extras, for a string or
    undefined [content]: the JSON response with that status which carries
    the status and the message.  It throws what the Response constructor
    throws for the status. *)
Definition error (status : Z) (content : option string) : completion Response :=
  json (VObj [("status", VNum status);
              ("error", VStr (default "Internal Server Error." content))]) status.

(** The middleware [withContent] of itty-router-extras: the value it leaves
    in [request.content], the parsed body of a JSON request, undefined when
    there is none or it does not parse. *)
Definition withContent `{Host} (request : Request) : val :=
  match headers_get (req_headers request) "content-type" with
  | Some contentType =>
      if includes "application/json" contentType
      then match JSON_parse (default "" (req_body request)) with
           | Return v => v
           | Throw _ => VUndefined
           end
      else VUndefined
  | None => VUndefined
  end.

(** The route ['/:prop'] of itty-router: a slash, one segment that is not
    empty and holds no slash, then slashes only.  The result is
    [request.params.prop]. *)
Fixpoint segment (s : string) : string * string :=
  match s with
  | EmptyString => ("", "")
  | String c rest =>
      if (nat_of_ascii c =? 47)%nat then ("", s)
      else let '(seg, tail) := segment rest in (String c seg, tail)
  end.

Fixpoint only_slashes (s : string) : bool :=
  match s with
  | EmptyString => true
  | String c rest => (nat_of_ascii c =? 47)%nat && only_slashes rest
  end.

Definition route_prop (pathname : string) : option string :=
  match pathname with
  | String c rest =>
      if (nat_of_ascii c =? 47)%nat then
        let '(seg, tail) := segment rest in
        if (seg =? "")%string then None
        else if only_slashes tail then Some seg else None
      else None
  | EmptyString => None
  end.

End Itty.

(** ** durable-stub.ts *)

Module DurableStub.
Import Js Itty.

Definition URL : string := "https://durable/".

Definition maxRetries : Z := 10.

(** The alternatives of the regular expression [retryOn].  None holds a
    character that is special in a regular expression, so each alternative
    matches itself, anywhere in the subject. *)
Definition retryOn : list string :=
  [ "Network connection lost";
    "Cannot resolve Durable Object due to transient issue on remote node";
    "Durable Object reset because its code was updated";
    "The Durable Object's code has been updated" ].

(** [retryOn.test(s)] *)
Definition retryOn_test (s : string) : bool :=
  existsb (fun alternative => includes alternative s) retryOn.

Definition shouldRetry (err : exn) (retries : Z) : bool :=
  if (retries >? maxRetries)%Z then false
  else retryOn_test (exn_to_string err).

Definition createRequest (prop : string) (content : val) : completion Request :=
  body ← JSON_stringify content;
  mret {| req_url := URL +:+ prop;
          req_method := "POST";
          req_headers := [("Content-Type", "application/json")];
          req_body := body |}.

Definition createResponse (data : val) : completion Response :=
  try_catch (json data 200) (fun _ => mret (Response_of_val data)).

Section WithHost.
Context `{Host}.

Definition transformResponse (response : Response) : completion any :=
  try_catch
    (text ← response_text response;
     try_catch (v ← JSON_parse text; mret (Data v))
               (fun _ => mret (Data (VStr text))))
    (fun _ => mret (AResponse response)).

(** What a call on a stub does to the outside, in order: a request built
    by [createRequest] and sent, a wait, a call of the fetch of the handle
    with the arguments of the caller. *)
Inductive io :=
| Sent (request : Request)
| Waited (ms : Z)
| Forwarded (args : list any).

(** [stubFetch(obj, prop, content, retries)].  The recursion of the source is
    on the promise of the next attempt; here [fuel] bounds the attempts, and
    [stubFetch] below supplies as many as the retry policy can ask for.  The
    result is how the promise settles, the world after the call, and what was
    sent and waited for.  None: the fuel ran out. *)
Fixpoint stubFetch_loop (fuel : nat) (obj : Handle) (prop : string) (content : val)
    (retries : Z) (w : World) (log : list io)
  : option (completion any * World * list io) :=
  match fuel with
  | O => None
  | S fuel' =>
      match createRequest prop content with
      | Throw e => Some (Throw e, w, log)
      | Return request =>
          let '(settled, w1) := handle_fetch obj request w in
          let log1 := (log ++ [Sent request])%list in
          match settled ≫= transformResponse with
          | Return v => Some (Return v, w1, log1)
          | Throw err =>
              if negb (shouldRetry err retries) then Some (Throw err, w1, log1)
              else stubFetch_loop fuel' obj prop content (retries + 1)%Z w1
                     (log1 ++ [Waited (2 ^ retries * 10)%Z])%list
          end
      end
  end.

Definition stubFetch (obj : Handle) (prop : string) (content : val) (retries : Z)
    (w : World) : option (completion any * World * list io) :=
  stubFetch_loop (S (Z.to_nat (maxRetries + 1 - retries))) obj prop content retries w [].

(** *** The stub proxy *)

(** The two arrow functions of [getDurableGet]:
    [(...args) => stub.fetch(...args)] and
    [(...args) => stubFetch(obj, prop, args)]. *)
Inductive closure :=
| FetchForward
| Invoker (prop : string).

(** A stub: the handle it wraps, the own properties of [methods] (each a
    closure, by location), and the closures created for it so far, in the
    order of their creation. *)
Record Stub := {
  stub_obj : Handle;
  stub_methods : gmap string nat;
  stub_closures : list closure;
}.

(** [prop in methods]: [methods] is an object literal, so the names of
    Object.prototype are in it too. *)
Definition methods_has (s : Stub) (prop : string) : bool :=
  bool_decide (is_Some (stub_methods s !! prop))
  || bool_decide (prop ∈ Object_prototype_names).

(** [methods[prop]] *)
Definition methods_get (s : Stub) (prop : string) : option pval :=
  match stub_methods s !! prop with
  | Some loc => Some (PFun (Allocated loc))
  | None => Object_prototype !! prop
  end.

(** The [get] trap of the proxy: the value of [stub[prop]] and the stub
    after the access. *)
Definition proxy_get (s : Stub) (prop : string) : option pval * Stub :=
  if methods_has s prop then (methods_get s prop, s)
  else if bool_decide (is_Some (h_props (stub_obj s) !! prop))
  then (h_props (stub_obj s) !! prop, s)
  else
    let loc := length (stub_closures s) in
    (Some (PFun (Allocated loc)),
     {| stub_obj := stub_obj s;
        stub_methods := <[ prop := loc ]> (stub_methods s);
        stub_closures := (stub_closures s ++ [Invoker prop])%list |}).

(** A call of one of the closures. *)
Definition call_closure (obj : Handle) (c : closure) (args : list any) (w : World)
  : option (completion any * World * list io) :=
  match c with
  | FetchForward =>
      let '(settled, w1) := fetch_call obj args w in
      Some (AResponse <$> settled, w1, [Forwarded args])
  | Invoker prop => stubFetch obj prop (array_of args) 0 w
  end.

(** [stub[prop](...args)]: read the property, then call what was read.  A
    value that is no function throws; a function that is not one of the
    closures of the stub belongs to the handle and is not followed here. *)
Definition call_method (s : Stub) (prop : string) (args : list any) (w : World)
  : option (completion any * World * list io) * Stub :=
  let '(f, s1) := proxy_get s prop in
  (match f with
   | Some (PFun (Allocated loc)) =>
       match stub_closures s1 !! loc with
       | Some c => call_closure (stub_obj s1) c args w
       | None => None
       end
   | Some (PFun _) => None
   | _ => Some (Throw (TypeError (prop +:+ " is not a function")), w, [])
   end, s1).

(** *** The instance resolver *)

(** The [id] argument: left out, a string, or a DurableObjectId. *)
Inductive id_arg :=
| NoId
| IdString (s : string)
| IdObject (i : DurableObjectId).

(** [!id] *)
Definition falsy (id : id_arg) : bool :=
  match id with
  | NoId => true
  | IdString s => (s =? "")%string
  | IdObject _ => false
  end.

(** The first statement of the function [getDurableGet] returns: the id
    handed to the original [get].  An omitted id is falsy, an empty string
    too; a DurableObjectId is an object, so it is truthy and no string. *)
Definition resolve_id (namespace : Namespace) (id : id_arg) (w : World)
  : completion DurableObjectId * World :=
  let mint := let '(fresh, w1) := newUniqueId namespace w in (Return fresh, w1) in
  match id with
  | NoId => mint
  | IdString s =>
      if falsy id then mint
      else (if (String.length s =? 64)%nat then idFromString namespace s
            else Return (idFromName namespace s), w)
  | IdObject i => (Return i, w)
  end.

(** [new Proxy(stub, { get })] with the [methods] literal: its one own
    property, [fetch], is the first closure. *)
Definition proxy_of (stub : Handle) : Stub :=
  {| stub_obj := stub;
     stub_methods := {[ "fetch" := 0 ]};
     stub_closures := [FetchForward] |}.

Definition getDurableGet (namespace : Namespace) (id : id_arg) (options : val)
    (w : World) : completion Stub * World :=
  let '(resolved, w1) := resolve_id namespace id w in
  (i ← resolved;
   let stub := get namespace i options in
   mret (proxy_of stub),
   w1).

Definition getDurable (namespace : Namespace) (id : id_arg) (options : val)
    (w : World) : completion Stub * World :=
  getDurableGet namespace id options w.

(** *** createDurable: the router inside the actor *)

(** The handler of the route [POST /:prop]. *)
Definition handler (api : obj) (request : Request) (prop : string) (content : val)
  : completion Response :=
  match obj_get api prop with
  | Some (PFun f) =>
      response ← (if (prop =? "fetch")%string then call_fn f [ARequest request]
                  else args ← spread_args content;
                       call_fn f (List.map Data args));
      match response with
      | AResponse r => mret r
      | Data v => createResponse v
      | ARequest _ => createResponse (VObj [])
      end
  | _ =>
      Throw (StatusError 500
               ("Durable Object does not contain method " +:+ prop +:+ "()"))
  end.

(** [router.handle(request)]: the response of the first route that matches
    and answers; None stands for undefined, when no route matches. *)
Definition router_handle (api : obj) (request : Request)
  : completion (option Response) :=
  if (req_method request =? "POST")%string then
    match route_prop (url_pathname (req_url request)) with
    | Some prop =>
        let content := withContent request in
        Some <$> handler api request prop content
    | None => mret None
    end
  else mret None.

(** [err.status || 500] *)
Definition status_or (status : option Z) (fallback : Z) : Z :=
  match status with
  | Some n => if (n =? 0)%Z then fallback else n
  | None => fallback
  end.

(** The [fetch] of the object that [createDurable(durable)(state, env)]
    returns, for [api = durable(state, env)].  [Data VUndefined] is the
    undefined with which [router.handle] resolves when no route matches.
    What the catch handler throws itself, reading a property of a thrown
    null or building a Response with a status the constructor refuses,
    rejects the promise. *)
Definition durable_fetch (api : obj) (request : Request) : completion any :=
  if String.prefix URL (req_url request) then
    try_catch
      (answer ← router_handle api request;
       mret (match answer with
             | Some r => AResponse r
             | None => Data VUndefined
             end))
      (fun err =>
         status ← exn_status err;
         message ← exn_message err;
         AResponse <$> error (status_or status 500) message)
  else
    let cannot := AResponse <$> error 500 (Some "Durable Object cannot handle request") in
    match obj_get api "fetch" with
    | None | Some (PVal VUndefined) | Some (PVal VNull) => cannot
    | Some (PFun f) =>
        answer ← call_fn f [ARequest request];
        match answer with
        | Data VUndefined | Data VNull =>
            if returns_promise f then mret answer else cannot
        | _ => mret answer
        end
    | Some (PVal _) => Throw (TypeError "api.fetch is not a function")
    end.

(** The object [createDurable(durable)(state, env)] returns. *)
Record Durable := {
  alarm : option pval;
  fetch : Request -> completion any;
}.

Definition createDurable (api : obj) : Durable :=
  {| alarm := obj_get api "alarm"; fetch := durable_fetch api |}.

End WithHost.
End DurableStub.

(** ** durable-ws.ts *)

Module DurableWS.
Import Js.

(** [string | ArrayBuffer | ArrayBufferView] *)
Inductive message :=
| Text (s : string)
| Binary (bytes : list Z).

(** A WebSocket object.  [ws_tags] is set once [state.acceptWebSocket] has
    registered the socket, [ws_attachment] by [serializeAttachment];
    [ws_outbox] holds the arguments of the calls of [send] that went
    through, oldest first, and [ws_closes] counts the calls of [close]. *)
Record WebSocket := {
  ws_tags : option (list string);
  ws_attachment : option (list string);
  ws_outbox : list message;
  ws_closes : nat;
}.

(** The DurableObjectState, as far as the broadcast layer uses it: the store
    of the WebSocket objects of the instance.  A WebSocket is named by its
    index in the store, so one object reached twice is one index twice. *)
Record DurableObjectState := {
  sockets : list WebSocket;
}.

(** A connection that [getWebSockets] reports: accepted, and carrying the
    tag asked for, if one is.  A connection on which [close] has been called
    is still reported; when the runtime drops a connection from its registry
    is its own affair and no part of these definitions. *)
Definition reported (tag : option string) (ws : WebSocket) : bool :=
  match ws_tags ws with
  | Some tags =>
      match tag with
      | Some t => bool_decide (t ∈ tags)
      | None => true
      end
  | None => false
  end.

(** [state.getWebSockets(tag)] and, for None, [state.getWebSockets()]. *)
Definition getWebSockets (state : DurableObjectState) (tag : option string) : list nat :=
  List.filter
    (fun w => match sockets state !! w with
              | Some ws => reported tag ws
              | None => false
              end)
    (seq 0 (length (sockets state))).

(** What a [send] that goes through leaves behind. *)
Definition ws_push (message : message) (state : DurableObjectState) (w : nat)
  : DurableObjectState :=
  {| sockets :=
       alter (fun ws => {| ws_tags := ws_tags ws;
                           ws_attachment := ws_attachment ws;
                           ws_outbox := (ws_outbox ws ++ [message])%list;
                           ws_closes := ws_closes ws |}) w (sockets state) |}.

(** [w.send(message)]: on a socket on which [close] has been called it throws
    a TypeError. *)
Definition ws_send (message : message) (state : DurableObjectState) (w : nat)
  : completion unit * DurableObjectState :=
  match sockets state !! w with
  | Some ws =>
      if (ws_closes ws =? 0)%nat then (Return tt, ws_push message state w)
      else (Throw (TypeError "Can't call WebSocket send() after close()."), state)
  | None => (Return tt, state)
  end.

(** [targets.forEach(w => w.send(message))]: nothing catches what a call of
    [send] throws, so the first one that throws ends the loop. *)
Fixpoint forEach_send (message : message) (targets : list nat)
    (state : DurableObjectState) : completion unit * DurableObjectState :=
  match targets with
  | [] => (Return tt, state)
  | w :: rest =>
      match ws_send message state w with
      | (Return _, state1) => forEach_send message rest state1
      | (Throw e, state1) => (Throw e, state1)
      end
  end.

(** [w.close()] *)
Definition ws_close (state : DurableObjectState) (w : nat) : DurableObjectState :=
  {| sockets :=
       alter (fun ws => {| ws_tags := ws_tags ws;
                           ws_attachment := ws_attachment ws;
                           ws_outbox := ws_outbox ws;
                           ws_closes := S (ws_closes ws) |}) w (sockets state) |}.

(** [new WebSocketPair()]: two fresh sockets, the client end and the server
    end. *)
Definition fresh_socket : WebSocket :=
  {| ws_tags := None; ws_attachment := None; ws_outbox := []; ws_closes := 0 |}.

Definition WebSocketPair (state : DurableObjectState)
  : nat * nat * DurableObjectState :=
  let client := length (sockets state) in
  (client, S client,
   {| sockets := (sockets state ++ [fresh_socket; fresh_socket])%list |}).

(** [state.acceptWebSocket(ws, tags)] *)
Definition acceptWebSocket (ws : nat) (tags : list string) (state : DurableObjectState)
  : DurableObjectState :=
  {| sockets :=
       alter (fun s => {| ws_tags := Some tags;
                          ws_attachment := ws_attachment s;
                          ws_outbox := ws_outbox s;
                          ws_closes := ws_closes s |}) ws (sockets state) |}.

(** [ws.serializeAttachment(tags)] *)
Definition serializeAttachment (ws : nat) (tags : list string) (state : DurableObjectState)
  : DurableObjectState :=
  {| sockets :=
       alter (fun s => {| ws_tags := ws_tags s;
                          ws_attachment := Some tags;
                          ws_outbox := ws_outbox s;
                          ws_closes := ws_closes s |}) ws (sockets state) |}.

(** [string[] | 'all'] *)
Inductive selector :=
| All
| Tags (tags : list string).

(** The connections a selector resolves to, in the order and with the
    repetitions in which [forEach] visits them. *)
Definition resolve (state : DurableObjectState) (tags : selector) : list nat :=
  match tags with
  | All => getWebSockets state None
  | Tags tags => flat_map (fun tag => getWebSockets state (Some tag)) tags
  end.

Definition sendTo (tags : selector) (message : message) (state : DurableObjectState)
  : completion unit * DurableObjectState :=
  forEach_send message (resolve state tags) state.

Definition close (tags : selector) (state : DurableObjectState) : DurableObjectState :=
  fold_left ws_close (resolve state tags) state.

(** [!upgradeHeader]: null and the empty string. *)
Definition no_header (h : option string) : bool :=
  match h with
  | None => true
  | Some v => (v =? "")%string
  end.

Definition upgrade (getTags : Request -> option (list string)) (request : Request)
    (state : DurableObjectState) : Response * DurableObjectState :=
  let upgradeHeader := headers_get (req_headers request) "Upgrade" in
  if no_header upgradeHeader || negb (bool_decide (upgradeHeader = Some "websocket"))
  then (new_Response (Some "Expected Upgrade: websocket") 426, state)
  else
    match getTags request with
    | None => (new_Response (Some "Cannot Upgrade: Bad Request") 400, state)
    | Some tags =>
        let '(client, server, state1) := WebSocketPair state in
        let state2 := acceptWebSocket server tags state1 in
        let state3 := serializeAttachment server tags state2 in
        ({| resp_status := 101; resp_headers := []; resp_body := None;
            resp_unreadable := None; resp_webSocket := Some client |}, state3)
    end.

(** The object [cws] handed to the wrapped initializer. *)
Record DurableWS := {
  cws_sendTo : selector -> message -> DurableObjectState ->
               completion unit * DurableObjectState;
  cws_close : selector -> DurableObjectState -> DurableObjectState;
  cws_upgrade : (Request -> option (list string)) -> Request ->
                DurableObjectState -> Response * DurableObjectState;
}.

Definition cws : DurableWS :=
  {| cws_sendTo := sendTo; cws_close := close; cws_upgrade := upgrade |}.

(** [durableWS(wrapped)(state, env)], where [wrapped(cws)(state, env)] is the
    API object of the wrapped actor. *)
Definition durableWS {Env : Type}
    (wrapped : DurableWS -> DurableObjectState -> Env -> obj)
    (state : DurableObjectState) (env : Env) : obj :=
  let api := wrapped cws state env in
  obj_spread api.

End DurableWS.

(** ** Notions the properties are stated with *)

Module Notions.
Import Js DurableStub DurableWS.

(** A run of [stubFetch] whose log is prefixed. *)
Definition logged `{Host} (log : list io) (r : option (completion any * World * list io))
  : option (completion any * World * list io) :=
  match r with
  | Some (outcome, w, l) => Some (outcome, w, (log ++ l)%list)
  | None => None
  end.

(** The log of a call that sends [request] at the attempt counts
    [retries], ..., [retries + k], with the backoff wait after each attempt
    but the last. *)
Fixpoint retry_log (request : Request) (retries : Z) (k : nat) : list io :=
  match k with
  | O => [Sent request]
  | S k' =>
      Sent request :: Waited (10 * 2 ^ retries) :: retry_log request (retries + 1) k'
  end.

(** The requests of a log, in order. *)
Definition requests (log : list io) : list Request :=
  omap (fun e => match e with Sent r => Some r | _ => None end) log.

(** [attempts obj request n w k w1 settled]: from the world [w] and the
    retry count [n], the fetch of [obj] fails [k] times in a row with a
    transient error at a count of at most 10, and the attempt after these
    settles as [settled], which is no such failure, and leaves [w1]. *)
Inductive attempts `{Host} (obj : Handle) (request : Request)
  : Z → World → nat → World → completion Response → Prop :=
| attempts_last n w settled w1 :
    handle_fetch obj request w = (settled, w1) →
    (∀ err, settled = Throw err →
            retryOn_test (exn_to_string err) = false ∨ (11 ≤ n)%Z) →
    attempts obj request n w 0 w1 settled
| attempts_more n w err w1 k w2 settled :
    handle_fetch obj request w = (Throw err, w1) →
    retryOn_test (exn_to_string err) = true →
    (n ≤ 10)%Z →
    attempts obj request (n + 1) w1 k w2 settled →
    attempts obj request n w (S k) w2 settled.

(** No [close] has been called on any of the sockets [targets]. *)
Definition all_open (state : DurableObjectState) (targets : list nat) : Prop :=
  ∀ w ws, In w targets → sockets state !! w = Some ws → ws_closes ws = 0%nat.

(** [accessed s s']: the stub in state [s] reaches state [s'] by property
    reads. *)
Inductive accessed (s : Stub) : Stub → Prop :=
| accessed_refl : accessed s s
| accessed_get s' prop : accessed s s' → accessed s (snd (proxy_get s' prop)).

(** What holds of a stub for the handle [h] in every state it goes through:
    [methods.fetch] is the forwarding closure, and every other own property
    of [methods] is the invoker of its name, a name the handle does not
    have. *)
Definition stub_inv (h : Handle) (s : Stub) : Prop :=
  stub_obj s = h ∧
  stub_methods s !! "fetch" = Some 0 ∧
  stub_closures s !! 0 = Some FetchForward ∧
  ∀ p loc, stub_methods s !! p = Some loc → p ≠ "fetch" →
    stub_closures s !! loc = Some (Invoker p) ∧
    h_props h !! p = None ∧
    p ∉ Object_prototype_names.

(** A socket after [k] more calls of [send] with [msg], and after [k] more
    calls of [close]. *)
Definition received (k : nat) (msg : message) (ws : WebSocket) : WebSocket :=
  {| ws_tags := ws_tags ws;
     ws_attachment := ws_attachment ws;
     ws_outbox := (ws_outbox ws ++ replicate k msg)%list;
     ws_closes := ws_closes ws |}.

Definition closed (k : nat) (ws : WebSocket) : WebSocket :=
  {| ws_tags := ws_tags ws;
     ws_attachment := ws_attachment ws;
     ws_outbox := ws_outbox ws;
     ws_closes := k + ws_closes ws |}.

(** The statuses with which the Response constructor accepts a body. *)
Definition body_status (status : Z) : bool :=
  ((200 <=? status) && (status <=? 599))%Z && negb (null_body_status status).

(** The thrown values of which the catch handler of the actor's fetch can
    make its error response: it can read [status] and [message] of them, and
    the status it arrives at is one a Response with a body can have. *)
Definition answerable (err : exn) : bool :=
  match err with
  | ErrorObject _ _ status => body_status (status_or status 500)
  | Thrown _ => true
  | ThrownNull | ThrownUndefined => false
  end.

(** How often [w] occurs among the connections a selector resolves to. *)
Definition visits (state : DurableObjectState) (tags : selector) (w : nat) : nat :=
  count_occ Nat.eq_dec (resolve state tags) w.

End Notions.

(** ** A small host, to run the definitions on concrete inputs *)

Module Sample.
Import Js Itty DurableStub DurableWS.

(** The network is a script: the answers of the next calls of [fetch], in
    order; past its end every call is answered by an empty 200.  The runtime
    counts the identifiers it has minted. *)
Record world := {
  script : list (completion Response);
  minted : nat;
}.

(** A parser for the literals null, true and false; every other text is a
    SyntaxError. *)
Definition parse (text : string) : completion val :=
  if (text =? "null")%string then Return VNull
  else if (text =? "true")%string then Return (VBool true)
  else if (text =? "false")%string then Return (VBool false)
  else Throw (ErrorObject "SyntaxError" "Unexpected token" None).

(** The pathname of a URL of the origin https://durable that has neither
    query nor fragment. *)
Definition pathname (url : string) : string :=
  if String.prefix URL url
  then String.substring 15 (String.length url - 15) url
  else url.

Definition answer (w : world) : completion Response * world :=
  match script w with
  | [] => (Return (new_Response None 200), w)
  | r :: rest => (r, {| script := rest; minted := minted w |})
  end.

(** The actor has one function, [Defined 0], which returns the number of its
    arguments. *)
Definition call (f : fn) (args : list any) : completion any :=
  match f with
  | Defined 0 => Return (Data (VNum (Z.of_nat (length args))))
  | _ => Throw (TypeError "not a function of the sample actor")
  end.

#[global] Instance host : Host :=
  {| World := world;
     JSON_parse := parse;
     url_pathname := pathname;
     fetch_call := fun _ _ w => answer w;
     call_fn := call;
     returns_promise := fun _ => false |}.

(** A handle with the properties of a DurableObjectStub, [id], [name] and
    [fetch], on top of what it inherits from Object.prototype. *)
Definition handle_of (i : DurableObjectId) : Handle :=
  {| h_props := <[ "fetch" := PFun (Builtin "DurableObjectStub.fetch") ]>
                  (<[ "id" := PVal (VStr (id_text i)) ]>
                     (<[ "name" := PVal VUndefined ]> Object_prototype));
     h_id := i |}.

Definition mint (w : world) : DurableObjectId * world :=
  ({| id_text := "unique-" +:+ pretty (minted w) |},
   {| script := script w; minted := S (minted w) |}).

Definition namespace : @Namespace host :=
  @Build_Namespace host mint
    (fun name => {| id_text := "name-" +:+ name |})
    (fun s => Return {| id_text := s |})
    (fun i _ => handle_of i).

Definition quiet : world := {| script := []; minted := 0 |}.

Definition lost : exn := ErrorObject "Error" "Network connection lost." None.

Definition refused : exn := ErrorObject "Error" "Connection refused" None.

(** A world whose network fails once in the transient way, then answers. *)
Definition flaky : world := {| script := [Throw lost]; minted := 0 |}.

(** The stub for the instance named counter. *)
Definition counter : Stub :=
  {| stub_obj := handle_of {| id_text := "name-counter" |};
     stub_methods := {[ "fetch" := 0 ]};
     stub_closures := [FetchForward] |}.

Definition call_add : Request :=
  {| req_url := "https://durable/add"; req_method := "POST";
     req_headers := [("Content-Type", "application/json")];
     req_body := Some "[1,2]" |}.

(** An actor whose API object is a literal with one method and one datum. *)
Definition literal_api : obj :=
  {| own := {[ "count" := {| p_value := PFun (Defined 0); p_enumerable := true |};
               "version" := {| p_value := PVal (VNum 3); p_enumerable := true |} ]};
     inherited := Object_prototype |}.

(** An actor whose API object is an instance of a class: its handler is a
    method of the prototype, its own property is a field. *)
Definition instance_api : obj :=
  {| own := {[ "version" := {| p_value := PVal (VNum 3); p_enumerable := true |} ]};
     inherited := <[ "webSocketMessage" := PFun (Defined 0) ]> Object_prototype |}.

(** Two accepted connections, the first under two tags, and a socket that
    was never accepted. *)
Definition lobby : DurableObjectState :=
  {| sockets :=
       [ {| ws_tags := Some ["x"; "y"]; ws_attachment := Some ["x"; "y"];
            ws_outbox := []; ws_closes := 0 |};
         {| ws_tags := Some ["y"]; ws_attachment := Some ["y"];
            ws_outbox := []; ws_closes := 0 |};
         fresh_socket ] |}.

(** Three accepted connections; [close] has been called on the second. *)
Definition closing_lobby : DurableObjectState :=
  {| sockets :=
       [ {| ws_tags := Some ["x"]; ws_attachment := Some ["x"];
            ws_outbox := []; ws_closes := 0 |};
         {| ws_tags := Some ["x"]; ws_attachment := Some ["x"];
            ws_outbox := []; ws_closes := 1 |};
         {| ws_tags := Some ["x"]; ws_attachment := Some ["x"];
            ws_outbox := []; ws_closes := 0 |} ] |}.

Definition upgrading : Request :=
  {| req_url := "https://example.com/ws"; req_method := "GET";
     req_headers := [("upgrade", "websocket")]; req_body := None |}.

End Sample.

(** ** durable-stub.ts: extending the namespaces of an environment *)

Module Environment.
Import Js.

(** The function in the [get] property of a namespace: the one the runtime
    put there, or the closure [getDurableGet(namespace)] returns, which keeps
    the function it found in the property when it was created. *)
Inductive getter :=
| RuntimeGet
| Resolver (get : getter).

(** A function object in the [get] property, with its [extended]
    property. *)
Record get_slot := {
  slot_fn : getter;
  slot_extended : bool;
}.

(** An object among the values of [env], as far as the sweep looks at it:
    its [idFromName] and [get] properties; None is undefined. *)
Record env_object := {
  o_idFromName : option pval;
  o_get : option get_slot;
}.

(** A value of [env]: data, or a reference to an object of the heap.  Two
    properties of [env] may refer to one object. *)
Inductive env_value :=
| Plain (v : val)
| Reference (loc : nat).

(** [extendNamespace(namespace)], for the object at [loc]. *)
Definition extendNamespace (loc : nat) (heap : list env_object)
  : completion unit * list env_object :=
  match heap !! loc with
  | Some o =>
      match o_get o with
      | Some slot =>
          if negb (slot_extended slot) then
            (Return tt,
             <[ loc := {| o_idFromName := o_idFromName o;
                          o_get := Some {| slot_fn := Resolver (slot_fn slot);
                                           slot_extended := true |} |} ]> heap)
          else (Return tt, heap)
      | None =>
          (Throw (TypeError "Cannot read properties of undefined (reading 'extended')"),
           heap)
      end
  | None => (Return tt, heap)
  end.

(** [value && typeof value.idFromName === 'function'] *)
Definition namespace_like (heap : list env_object) (value : env_value) : bool :=
  match value with
  | Plain _ => false
  | Reference loc =>
      match heap !! loc with
      | Some o => is_function (o_idFromName o)
      | None => false
      end
  end.

(** The loop of [extendEnv] over [Object.values(env)]. *)
Fixpoint extend_values (values : list env_value) (heap : list env_object)
  : completion unit * list env_object :=
  match values with
  | [] => (Return tt, heap)
  | value :: rest =>
      if namespace_like heap value then
        match value with
        | Reference loc =>
            match extendNamespace loc heap with
            | (Return _, heap1) => extend_values rest heap1
            | (Throw e, heap1) => (Throw e, heap1)
            end
        | Plain _ => extend_values rest heap
        end
      else extend_values rest heap
  end.

(** [extendEnv(env)]: it returns [env] itself, so what is left to tell is
    whether it returns and what the heap is afterwards. *)
Definition extendEnv (env : list (string * env_value)) (heap : list env_object)
  : completion unit * list env_object :=
  extend_values (List.map snd env) heap.

Definition withDurables (request : Request) (env : list (string * env_value))
    (heap : list env_object) : completion unit * list env_object :=
  extendEnv env heap.

End Environment.

(** ** Further notions *)

Module Measures.
Import Js DurableStub DurableWS Environment.

(** The time a call has waited between its attempts, in milliseconds. *)
Definition total_wait (log : list io) : Z :=
  fold_right (fun e acc => match e with
                           | Waited ms => (ms + acc)%Z
                           | _ => acc
                           end) 0%Z log.

(** An object whose [get] has been replaced by the resolver, unless it was
    marked as extended already. *)
Definition extend_object (o : env_object) : env_object :=
  match o_get o with
  | Some slot =>
      if slot_extended slot then o
      else {| o_idFromName := o_idFromName o;
              o_get := Some {| slot_fn := Resolver (slot_fn slot);
                               slot_extended := true |} |}
  | None => o
  end.

(** An object the sweep has nothing left to do for: if it looks like a
    namespace, its get is marked as extended. *)
Definition settled (heap : list env_object) (loc : nat) : Prop :=
  ∀ o, heap !! loc = Some o → is_function (o_idFromName o) = true →
       ∃ slot, o_get o = Some slot ∧ slot_extended slot = true.

(** The objects the values of an environment refer to. *)
Definition referenced (values : list env_value) : list nat :=
  omap (fun value => match value with
                     | Reference loc => Some loc
                     | Plain _ => None
                     end) values.

(** The object at [loc] is a value of the environment and has a function as
    its [idFromName]. *)
Definition swept (values : list env_value) (loc : nat) (o : env_object) : bool :=
  bool_decide (loc ∈ referenced values) && is_function (o_idFromName o).

(** The content a spread into an argument list accepts: an array or a
    string. *)
Definition iterable (v : val) : bool :=
  match v with
  | VArr _ | VStr _ => true
  | _ => false
  end.


(** The values [typeof] calls object and JSON can hold. *)
Definition structured (v : val) : bool :=
  match v with
  | VNull | VArr _ | VObj _ => true
  | _ => false
  end.

End Measures.

(** ** Two more hosts *)

Module Cases.
Import Js Itty DurableStub DurableWS Environment Sample.

(** A network that is down: every fetch fails in the transient way. *)
#[global] Instance outage : Host :=
  {| World := unit;
     JSON_parse := parse;
     url_pathname := pathname;
     fetch_call := fun _ _ w => (Throw lost, w);
     call_fn := call;
     returns_promise := fun _ => false |}.

(** A parser for null and the empty array. *)
Definition parse_more (text : string) : completion val :=
  if (text =? "[]")%string then Return (VArr [])
  else if (text =? "null")%string then Return VNull
  else Throw (ErrorObject "SyntaxError" "Unexpected token" None).

(** An actor with six functions: the first returns its arguments, the
    second returns nothing, the third throws a StatusError, the fourth
    returns a Response of its own, the fifth throws null, the sixth throws
    an error whose status no Response can have. *)
Definition page : Response := new_Response (Some "<p>hello</p>") 201.

Definition act (f : fn) (args : list any) : completion any :=
  match f with
  | Defined 0 => Return (Data (array_of args))
  | Defined 1 => Return (Data VUndefined)
  | Defined 2 => Throw (StatusError 404 "no such item")
  | Defined 3 => Return (AResponse page)
  | Defined 4 => Throw ThrownNull
  | Defined 5 => Throw (StatusError 42 "odd status")
  | _ => Throw (TypeError "not a function of the actor")
  end.

Definition echo_api : obj :=
  {| own := {[ "echo" := {| p_value := PFun (Defined 0); p_enumerable := true |};
               "touch" := {| p_value := PFun (Defined 1); p_enumerable := true |};
               "find" := {| p_value := PFun (Defined 2); p_enumerable := true |};
               "render" := {| p_value := PFun (Defined 3); p_enumerable := true |};
               "fail" := {| p_value := PFun (Defined 4); p_enumerable := true |};
               "odd" := {| p_value := PFun (Defined 5); p_enumerable := true |};
               "fetch" := {| p_value := PFun (Defined 3); p_enumerable := true |} ]};
     inherited := Object_prototype |}.

(** The internal request for the method [m] with the JSON text [body]. *)
Definition post (m : string) (body : option string) : Request :=
  {| req_url := "https://durable/" +:+ m; req_method := "POST";
     req_headers := match body with
                    | Some _ => [("Content-Type", "application/json")]
                    | None => []
                    end;
     req_body := body |}.

(** The actor side of the loopback, which has no network of its own. *)
Definition actor_side : Host :=
  {| World := unit;
     JSON_parse := parse_more;
     url_pathname := pathname;
     fetch_call := fun _ _ w => (Throw refused, w);
     call_fn := act;
     returns_promise := fun _ => false |}.

(** A network that hands every request to the [fetch] of the actor made by
    [createDurable] from [echo_api], and brings its response back. *)
Definition deliver (request : Request) : completion Response :=
  match fetch (@createDurable actor_side echo_api) request with
  | Return (AResponse r) => Return r
  | Return _ => Throw (TypeError "no response")
  | Throw e => Throw e
  end.

#[global] Instance loopback : Host :=
  {| World := unit;
     JSON_parse := parse_more;
     url_pathname := pathname;
     fetch_call := fun _ args w =>
       (match args with
        | ARequest request :: _ => deliver request
        | _ => Throw (TypeError "Invalid URL")
        end, w);
     call_fn := act;
     returns_promise := fun _ => false |}.

(** A handle whose class gives it a constructor and a toString of its
    own. *)
Definition classy_handle : Handle :=
  {| h_props := <[ "constructor" := PFun (Builtin "DurableObjectStub") ]>
                  (<[ "toString" := PFun (Builtin "DurableObjectStub.toString") ]>
                     (h_props (handle_of {| id_text := "name-counter" |})));
     h_id := {| id_text := "name-counter" |} |}.

(** An environment with a namespace under two names, a plain value, and an
    object that is no namespace. *)
Definition bindings : list (string * env_value) :=
  [ ("Counter", Reference 0); ("MODE", Plain (VStr "dev"));
    ("Alias", Reference 0); ("KV", Reference 1) ].

Definition fresh_heap : list env_object :=
  [ {| o_idFromName := Some (PFun (Builtin "idFromName"));
       o_get := Some {| slot_fn := RuntimeGet; slot_extended := false |} |};
    {| o_idFromName := None;
       o_get := Some {| slot_fn := RuntimeGet; slot_extended := false |} |} ].

(** An object that looks like a namespace and has no [get]. *)
Definition broken_heap : list env_object :=
  [ {| o_idFromName := Some (PFun (Builtin "idFromName")); o_get := None |};
    {| o_idFromName := None; o_get := None |} ].

End Cases.

(** * Properties *)

(** ** Runs on concrete inputs *)

Module Runs.
Import Js Itty DurableStub DurableWS Sample.

Example stringify_args :
  JSON_stringify (array_of [Data (VNum 1); Data (VStr "x"); Data (VObj [("a", VNum 1)])])
  = Return (Some (String.concat "" ["[1,"; quote "x"; ",{"; quote "a"; ":1}]"])).
Proof. vm_compute. reflexivity. Qed.

Example createRequest_add :
  createRequest "add" (VArr [VNum 1; VNum 2]) = Return call_add.
Proof. vm_compute. reflexivity. Qed.

Example shouldRetry_lost_10 : shouldRetry lost 10 = true.
Proof. vm_compute. reflexivity. Qed.

Example shouldRetry_lost_11 : shouldRetry lost 11 = false.
Proof. vm_compute. reflexivity. Qed.

Example shouldRetry_refused_0 : shouldRetry refused 0 = false.
Proof. vm_compute. reflexivity. Qed.

Example stubFetch_flaky :
  @stubFetch host (stub_obj counter) "add" (VArr [VNum 1; VNum 2]) 0 flaky
  = Some (Return (Data (VStr "")), quiet, [Sent call_add; Waited 10; Sent call_add]).
Proof. vm_compute. reflexivity. Qed.

Example transformResponse_json :
  @transformResponse host (new_Response (Some "true") 200) = Return (Data (VBool true)).
Proof. vm_compute. reflexivity. Qed.

Example transformResponse_text :
  @transformResponse host (new_Response (Some "hello") 200) = Return (Data (VStr "hello")).
Proof. vm_compute. reflexivity. Qed.

Example transformResponse_unreadable :
  let used := {| resp_status := 200; resp_headers := []; resp_body := Some "true";
                 resp_unreadable := Some (TypeError "Body has already been used");
                 resp_webSocket := None |} in
  @transformResponse host used = Return (AResponse used).
Proof. vm_compute. reflexivity. Qed.

Example route_add : route_prop "/add" = Some "add".
Proof. vm_compute. reflexivity. Qed.

Example route_nested : route_prop "/a/b" = None.
Proof. vm_compute. reflexivity. Qed.

Example post_data_property :
  fetch (@createDurable host literal_api)
    {| req_url := "https://durable/version"; req_method := "POST";
       req_headers := [("Content-Type", "application/json")]; req_body := Some "[]" |}
  = AResponse <$> error 500 (Some "Durable Object does not contain method version()").
Proof. vm_compute. reflexivity. Qed.

Example get_is_not_routed :
  fetch (@createDurable host literal_api)
    {| req_url := "https://durable/count"; req_method := "GET";
       req_headers := []; req_body := None |}
  = Return (Data VUndefined).
Proof. vm_compute. reflexivity. Qed.

Example external_request_without_fetch :
  fetch (@createDurable host literal_api)
    {| req_url := "https://example.com/"; req_method := "GET";
       req_headers := []; req_body := None |}
  = AResponse <$> error 500 (Some "Durable Object cannot handle request").
Proof. vm_compute. reflexivity. Qed.

Example resolve_canonical :
  let hex := "0123456789abcdef0123456789abcdef0123456789abcdef0123456789abcdef" in
  @getDurableGet host namespace (IdString hex) VUndefined quiet
  = (Return (proxy_of (handle_of {| id_text := hex |})), quiet).
Proof. vm_compute. reflexivity. Qed.

Example resolve_name :
  @getDurableGet host namespace (IdString "counter") VUndefined quiet
  = (Return (proxy_of (handle_of {| id_text := "name-counter" |})), quiet).
Proof. vm_compute. reflexivity. Qed.

Example resolve_twice_without_id :
  let '(first, w1) := @getDurableGet host namespace NoId VUndefined quiet in
  let '(second, _) := @getDurableGet host namespace NoId VUndefined w1 in
  first = Return (proxy_of (handle_of {| id_text := "unique-0" |})) ∧
  second = Return (proxy_of (handle_of {| id_text := "unique-1" |})).
Proof. vm_compute. split; reflexivity. Qed.

Example read_twice :
  let '(first, s1) := proxy_get counter "add" in
  let '(second, s2) := proxy_get s1 "add" in
  first = Some (PFun (Allocated 1)) ∧ second = first ∧ s2 = s1 ∧
  stub_closures s1 = [FetchForward; Invoker "add"].
Proof. vm_compute. repeat split; reflexivity. Qed.

Example upgrade_426 :
  upgrade (fun _ => Some ["x"])
    {| req_url := "https://example.com/ws"; req_method := "GET";
       req_headers := []; req_body := None |} lobby
  = (new_Response (Some "Expected Upgrade: websocket") 426, lobby).
Proof. vm_compute. reflexivity. Qed.

Example upgrade_400 :
  upgrade (fun _ => None) upgrading lobby
  = (new_Response (Some "Cannot Upgrade: Bad Request") 400, lobby).
Proof. vm_compute. reflexivity. Qed.

Example upgrade_101 :
  let '(r, state) := upgrade (fun _ => Some ["x"]) upgrading lobby in
  resp_status r = 101%Z ∧ resp_webSocket r = Some 3%nat ∧
  getWebSockets state (Some "x") = [0; 4]%nat ∧
  getWebSockets state (Some "y") = [0; 1]%nat ∧
  ws_attachment <$> sockets state !! 4%nat = Some (Some ["x"]).
Proof. vm_compute. repeat split; reflexivity. Qed.

Example spread_literal :
  own (durableWS (fun _ _ (_ : unit) => literal_api) lobby tt) = own literal_api.
Proof. vm_compute. reflexivity. Qed.

Example getWebSockets_y : getWebSockets lobby (Some "y") = [0; 1].
Proof. vm_compute. reflexivity. Qed.

Example getWebSockets_all : getWebSockets lobby None = [0; 1].
Proof. vm_compute. reflexivity. Qed.

End Runs.

(** ** The wire codec and the retry policy *)

Module Retry.
Import Js Itty DurableStub Notions.

Section WithHost.
Context `{Host}.

(** Decoding settles with a value, whatever the response. *)
Lemma transformResponse_returns (response : Response) :
  ∃ v, transformResponse response = Return v.
Proof.
  unfold transformResponse.
  destruct (response_text response) as [text|e]; simpl; [|eauto].
  destruct (JSON_parse text) as [v|e]; simpl; eauto.
Qed.

(** So a call settles the way the transport does. *)
Lemma then_transformResponse_throw (settled : completion Response) (err : exn) :
  settled ≫= transformResponse = Throw err → settled = Throw err.
Proof.
  destruct settled as [response|e]; simpl.
  - destruct (transformResponse_returns response) as [v ->]. discriminate.
  - congruence.
Qed.

Lemma stubFetch_loop_log fuel obj prop content retries w log :
  stubFetch_loop fuel obj prop content retries w log
  = logged log (stubFetch_loop fuel obj prop content retries w []).
Proof.
  revert retries w log.
  induction fuel as [|fuel IH]; intros retries w log; simpl; [done|].
  destruct (createRequest prop content) as [request|e]; simpl.
  2: { by rewrite app_nil_r. }
  destruct (handle_fetch obj request w) as [settled w1].
  destruct (settled ≫= transformResponse) as [v|err]; simpl; [done|].
  destruct (shouldRetry err retries); simpl; [|done].
  rewrite (IH _ _ ((log ++ _) ++ _)%list), (IH _ _ (_ :: _)).
  destruct (stubFetch_loop fuel obj prop content (retries + 1) w1 [])
    as [[[outcome w2] l]|]; simpl; [|done].
  by rewrite <- !app_assoc.
Qed.

(** A retry is granted for a count of at most [maxRetries] only. *)
Lemma shouldRetry_bound (err : exn) (retries : Z) :
  shouldRetry err retries = true → (retries ≤ maxRetries)%Z.
Proof.
  unfold shouldRetry.
  destruct (retries >? maxRetries)%Z eqn:Hgt; [discriminate|].
  intros _. lia.
Qed.

(** With as many attempts as the policy can ask for, the loop ends. *)
Lemma stubFetch_loop_ends fuel obj prop content retries w log :
  (Z.to_nat (maxRetries + 1 - retries) < fuel)%nat →
  is_Some (stubFetch_loop fuel obj prop content retries w log).
Proof.
  revert retries w log.
  induction fuel as [|fuel IH]; intros retries w log Hfuel; [lia|]. simpl.
  destruct (createRequest prop content) as [request|e]; [|eauto].
  destruct (handle_fetch obj request w) as [settled w1].
  destruct (settled ≫= transformResponse) as [v|err]; [eauto|].
  destruct (shouldRetry err retries) eqn:Hretry; simpl; [|eauto].
  apply IH. apply shouldRetry_bound in Hretry. lia.
Qed.

(** [stubFetch] settles: it never runs out of attempts. *)
Lemma stubFetch_settles obj prop content retries w :
  ∃ outcome w1 log, stubFetch obj prop content retries w = Some (outcome, w1, log).
Proof.
  destruct (stubFetch_loop_ends (S (Z.to_nat (maxRetries + 1 - retries)))
              obj prop content retries w []) as [[[outcome w1] log] Hrun]; [lia|].
  unfold stubFetch. eauto.
Qed.

(** One attempt of [stubFetch] that ends the call. *)
Lemma stubFetch_final obj prop content request retries w settled w1 :
  createRequest prop content = Return request →
  handle_fetch obj request w = (settled, w1) →
  match settled with
  | Return _ => True
  | Throw err => shouldRetry err retries = false
  end →
  stubFetch obj prop content retries w
  = Some (settled ≫= transformResponse, w1, [Sent request]).
Proof.
  intros Hreq Hfetch Hlast. unfold stubFetch. simpl.
  rewrite Hreq, Hfetch.
  destruct settled as [response|err]; simpl.
  - destruct (transformResponse_returns response) as [v Hv]. by rewrite Hv.
  - by rewrite Hlast.
Qed.

(** One attempt of [stubFetch] that is followed by another. *)
Lemma stubFetch_again obj prop content request retries w err w1 :
  createRequest prop content = Return request →
  handle_fetch obj request w = (Throw err, w1) →
  shouldRetry err retries = true →
  stubFetch obj prop content retries w
  = logged [Sent request; Waited (10 * 2 ^ retries)]
      (stubFetch obj prop content (retries + 1) w1).
Proof.
  intros Hreq Hfetch Hretry. unfold stubFetch at 1. simpl.
  rewrite Hreq, Hfetch. simpl. rewrite Hretry. simpl.
  rewrite stubFetch_loop_log. unfold stubFetch.
  apply shouldRetry_bound in Hretry.
  replace (Z.to_nat (maxRetries + 1 - retries))
    with (S (Z.to_nat (maxRetries + 1 - (retries + 1)))) by lia.
  by replace (2 ^ retries * 10)%Z with (10 * 2 ^ retries)%Z by lia.
Qed.

(** C4. Decoding a transport response never throws: when the body text parses
    as JSON the parsed value is returned, when parsing fails the text itself,
    and when the text cannot be read the response object itself. *)
Theorem transformResponse_three_tiers (response : Response) :
  (∃ v, transformResponse response = Return v) ∧
  (∀ text v, response_text response = Return text →
             JSON_parse text = Return v →
             transformResponse response = Return (Data v)) ∧
  (∀ text e, response_text response = Return text →
             JSON_parse text = Throw e →
             transformResponse response = Return (Data (VStr text))) ∧
  (∀ e, response_text response = Throw e →
        transformResponse response = Return (AResponse response)).
Proof.
  split; [apply transformResponse_returns|].
  unfold transformResponse.
  repeat split.
  - intros text v -> Hparse. simpl. by rewrite Hparse.
  - intros text e -> Hparse. simpl. by rewrite Hparse.
  - by intros e ->.
Qed.

(** C1. For an error whose string form matches a transient pattern,
    shouldRetry is true for every attempt count up to 10 and false for every
    count from 11 on; and an attempt with count n, from 0 to 10, that fails
    with such an error is followed, after a wait of 10 * 2^n milliseconds, by
    the attempt with count n + 1, which decides the call. *)
Theorem transient_error_is_retried (err : exn) :
  retryOn_test (exn_to_string err) = true →
  (∀ n, (n ≤ 10)%Z → shouldRetry err n = true) ∧
  (∀ n, (11 ≤ n)%Z → shouldRetry err n = false) ∧
  (∀ obj prop content request n w w1,
     (0 ≤ n ≤ 10)%Z →
     createRequest prop content = Return request →
     handle_fetch obj request w = (Throw err, w1) →
     ∃ outcome w2 log,
       stubFetch obj prop content (n + 1) w1 = Some (outcome, w2, log) ∧
       stubFetch obj prop content n w
       = Some (outcome, w2, Sent request :: Waited (10 * 2 ^ n) :: log)).
Proof.
  intros Htransient.
  assert (Hle : ∀ n, (n ≤ 10)%Z → shouldRetry err n = true).
  { intros n Hn. unfold shouldRetry, maxRetries.
    destruct (n >? 10)%Z eqn:Hgt; [lia|done]. }
  split; [exact Hle|]. split.
  - intros n Hn. unfold shouldRetry, maxRetries.
    destruct (n >? 10)%Z eqn:Hgt; [done|lia].
  - intros obj prop content request n w w1 Hn Hreq Hfetch.
    destruct (stubFetch_settles obj prop content (n + 1) w1)
      as (outcome & w2 & log & Hnext).
    exists outcome, w2, log. split; [done|].
    rewrite (stubFetch_again _ _ _ _ _ _ _ _ Hreq Hfetch) by (apply Hle; lia).
    by rewrite Hnext.
Qed.

(** C5. For an error whose string form matches no transient pattern,
    shouldRetry is false for every attempt count; an attempt that fails with
    such an error is the last one, no wait and no further request follow it,
    and the call rejects with that very error. *)
Theorem permanent_error_is_surfaced (err : exn) :
  retryOn_test (exn_to_string err) = false →
  (∀ n, shouldRetry err n = false) ∧
  (∀ obj prop content request n w w1,
     createRequest prop content = Return request →
     handle_fetch obj request w = (Throw err, w1) →
     stubFetch obj prop content n w = Some (Throw err, w1, [Sent request])).
Proof.
  intros Hpermanent.
  assert (Hno : ∀ n, shouldRetry err n = false).
  { intros n. unfold shouldRetry. by destruct (n >? maxRetries)%Z. }
  split; [exact Hno|].
  intros obj prop content request n w w1 Hreq Hfetch.
  by rewrite (stubFetch_final _ _ _ _ _ _ _ _ Hreq Hfetch (Hno n)).
Qed.

End WithHost.

Import Sample.

Lemma transient_error_is_retried_witness :
  shouldRetry lost 10 = true ∧ shouldRetry lost 11 = false ∧
  ∃ outcome w2 log,
    @stubFetch host (stub_obj counter) "add" (VArr [VNum 1; VNum 2]) (0 + 1) quiet
    = Some (outcome, w2, log) ∧
    @stubFetch host (stub_obj counter) "add" (VArr [VNum 1; VNum 2]) 0 flaky
    = Some (outcome, w2, Sent call_add :: Waited (10 * 2 ^ 0) :: log).
Proof.
  destruct (@transient_error_is_retried host lost ltac:(vm_compute; reflexivity))
    as (Hle & Hge & Hrun).
  split; [apply Hle; lia|]. split; [apply Hge; lia|].
  apply (Hrun (stub_obj counter) "add" (VArr [VNum 1; VNum 2]) call_add 0%Z flaky quiet);
    [lia | vm_compute; reflexivity | vm_compute; reflexivity].
Defined.

Lemma permanent_error_is_surfaced_witness :
  shouldRetry refused 0 = false ∧
  @stubFetch host (stub_obj counter) "add" (VArr [VNum 1; VNum 2]) 0
    {| script := [Throw refused]; minted := 0 |}
  = Some (Throw refused, quiet, [Sent call_add]).
Proof.
  destruct (@permanent_error_is_surfaced host refused ltac:(vm_compute; reflexivity))
    as (Hno & Hrun).
  split; [apply Hno|].
  apply (Hrun (stub_obj counter) "add" (VArr [VNum 1; VNum 2]) call_add 0%Z
           {| script := [Throw refused]; minted := 0 |} quiet);
    vm_compute; reflexivity.
Defined.

End Retry.

(** ** The stub proxy and the instance resolver *)

Module Proxy.
Import Js Itty DurableStub Notions Retry.

Lemma methods_has_cached (s : Stub) (p : string) (loc : nat) :
  stub_methods s !! p = Some loc → methods_has s p = true.
Proof.
  intros Hp. unfold methods_has.
  rewrite bool_decide_eq_true_2; [done|]. by rewrite Hp.
Qed.

Lemma methods_has_false (s : Stub) (p : string) :
  methods_has s p = false →
  stub_methods s !! p = None ∧ p ∉ Object_prototype_names.
Proof.
  unfold methods_has. intros [Hown Hproto]%orb_false_elim.
  apply bool_decide_eq_false in Hown, Hproto.
  split; [|done].
  destruct (stub_methods s !! p) eqn:Hp; [|done].
  exfalso. apply Hown. eauto.
Qed.

(** A cached method is read back as it is, and the stub stays as it is. *)
Lemma proxy_get_cached (s : Stub) (p : string) (loc : nat) :
  stub_methods s !! p = Some loc →
  proxy_get s p = (Some (PFun (Allocated loc)), s).
Proof.
  intros Hp. unfold proxy_get, methods_get.
  by rewrite (methods_has_cached _ _ _ Hp), Hp.
Qed.

(** A read never changes an entry of the cache. *)
Lemma proxy_get_keeps (s : Stub) (p q : string) (loc : nat) :
  stub_methods s !! q = Some loc →
  stub_methods (snd (proxy_get s p)) !! q = Some loc.
Proof.
  intros Hq. unfold proxy_get.
  destruct (methods_has s p) eqn:Hhas; [done|].
  destruct (bool_decide (is_Some (h_props (stub_obj s) !! p))); [done|]. simpl.
  apply methods_has_false in Hhas as [Hp _].
  rewrite lookup_insert_ne; [done|]. congruence.
Qed.


Lemma proxy_of_inv (h : Handle) : stub_inv h (proxy_of h).
Proof.
  split; [done|]. split; [done|]. split; [done|].
  intros p loc Hlook Hne. simpl in Hlook.
  apply lookup_singleton_Some in Hlook as [<- _]. done.
Qed.

Lemma proxy_get_inv (h : Handle) (s : Stub) (p : string) :
  stub_inv h s → stub_inv h (snd (proxy_get s p)).
Proof.
  intros (Hobj & Hfetch & Hzero & Hrest). unfold proxy_get.
  destruct (methods_has s p) eqn:Hhas; [done|].
  destruct (bool_decide (is_Some (h_props (stub_obj s) !! p))) eqn:Hnative; [done|].
  simpl.
  apply methods_has_false in Hhas as [Hp Hproto].
  apply bool_decide_eq_false in Hnative.
  assert (p ≠ "fetch") as Hne by congruence.
  unfold stub_inv. cbn [stub_obj stub_methods stub_closures].
  split; [done|]. split; [by rewrite lookup_insert_ne|].
  split; [by apply lookup_app_l_Some|].
  intros q loc Hq Hqne.
  destruct (decide (q = p)) as [->|Hqp].
  - rewrite lookup_insert_eq in Hq. injection Hq as <-.
    split; [|split; [|done]].
    + rewrite lookup_app_r by lia. by rewrite Nat.sub_diag.
    + rewrite <- Hobj. destruct (h_props (stub_obj s) !! p) eqn:E; [|done].
      exfalso. apply Hnative. eauto.
  - rewrite lookup_insert_ne in Hq by done.
    destruct (Hrest q loc Hq Hqne) as (Hloc & Hnone & Hnot).
    split; [by apply lookup_app_l_Some|done].
Qed.

Lemma accessed_inv (h : Handle) (s s' : Stub) :
  stub_inv h s → accessed s s' → stub_inv h s'.
Proof.
  intros Hinv. induction 1 as [|s' p _ IH]; [done|].
  by apply proxy_get_inv.
Qed.

Lemma requests_retry_log (request : Request) (retries : Z) (k : nat) :
  requests (retry_log request retries k) = replicate (S k) request.
Proof.
  revert retries. induction k as [|k IH]; intros retries; [done|].
  cbn [retry_log]. unfold requests in *. cbn [omap list_omap]. by rewrite IH.
Qed.

Section WithHost.
Context `{Host}.

(** A run of the loop sends the same request at every attempt and waits
    10 * 2^n milliseconds after the failed attempt with count n; there is no
    attempt after the one with count 11. *)
Lemma stubFetch_loop_shape fuel obj prop content request retries w outcome w1 log :
  createRequest prop content = Return request →
  stubFetch_loop fuel obj prop content retries w [] = Some (outcome, w1, log) →
  ∃ k, log = retry_log request retries k ∧
       (k = 0%nat ∨ (retries + Z.of_nat k ≤ maxRetries + 1)%Z).
Proof.
  intros Hreq. revert retries w outcome w1 log.
  induction fuel as [|fuel IH]; intros retries w outcome w1 log; [done|].
  simpl. rewrite Hreq.
  destruct (handle_fetch obj request w) as [settled w2].
  destruct (settled ≫= transformResponse) as [v|err].
  { intros [= <- <- <-]. exists 0%nat. eauto. }
  destruct (shouldRetry err retries) eqn:Hretry; simpl.
  2: { intros [= <- <- <-]. exists 0%nat. eauto. }
  rewrite stubFetch_loop_log.
  destruct (stubFetch_loop fuel obj prop content (retries + 1) w2 [])
    as [[[outcome' w3] l]|] eqn:Hnext; [|done].
  simpl. intros [= <- <- <-].
  destruct (IH _ _ _ _ _ Hnext) as (k & -> & Hk).
  exists (S k). split.
  - cbn [retry_log]. by replace (2 ^ retries * 10)%Z with (10 * 2 ^ retries)%Z by lia.
  - right. apply shouldRetry_bound in Hretry. unfold maxRetries in *. lia.
Qed.

(** C3, as the code has it.  A property [p] that the handle has, other than
    fetch and the names an object literal inherits from Object.prototype, is
    read through the stub as the value the handle holds, and the read leaves
    the stub as it is.  Reading fetch yields the first closure of the stub,
    and calling it calls the fetch of the handle once, with all the
    arguments of the call, and settles as that call does. *)
Theorem native_property_is_passed_through (h : Handle) (s : Stub) (p : string) (v : pval) :
  accessed (proxy_of h) s →
  h_props h !! p = Some v →
  p ≠ "fetch" →
  p ∉ Object_prototype_names →
  proxy_get s p = (Some v, s) ∧
  proxy_get s "fetch" = (Some (PFun (Allocated 0)), s) ∧
  stub_closures s !! 0%nat = Some FetchForward ∧
  ∀ args w,
    call_method s "fetch" args w
    = (Some (AResponse <$> fst (fetch_call h args w),
             snd (fetch_call h args w), [Forwarded args]), s).
Proof.
  intros Hreach Hp Hne Hproto.
  destruct (accessed_inv h _ _ (proxy_of_inv h) Hreach)
    as (Hobj & Hfetch & Hzero & Hrest).
  split; [|split; [by apply proxy_get_cached|split; [done|]]].
  - unfold proxy_get.
    assert (methods_has s p = false) as ->.
    { unfold methods_has. apply orb_false_intro.
      - apply bool_decide_eq_false. intros [loc Hloc].
        destruct (Hrest p loc Hloc Hne) as (_ & Hnone & _). congruence.
      - by apply bool_decide_eq_false. }
    rewrite Hobj, Hp. rewrite bool_decide_eq_true_2; [done|eauto].
  - intros args w. unfold call_method.
    rewrite (proxy_get_cached _ _ _ Hfetch), Hzero, Hobj.
    cbn [call_closure]. by destruct (fetch_call h args w).
Qed.

(** A run of [stubFetch] follows the transport: it makes one attempt for
    each transient failure that the transport answers in a row at a count of
    at most 10, and one more, which decides the call. *)
Lemma stubFetch_follows_attempts obj prop content request :
  createRequest prop content = Return request →
  ∀ (j : nat) (n : Z) (w : World),
    (Z.to_nat (11 - n) ≤ j)%nat →
    ∃ k w1 settled,
      attempts obj request n w k w1 settled ∧
      stubFetch obj prop content n w
      = Some (settled ≫= transformResponse, w1, retry_log request n k) ∧
      (k = 0%nat ∨ (n + Z.of_nat k ≤ 11)%Z).
Proof.
  intros Hreq. induction j as [|j IH]; intros n w Hj.
  - destruct (handle_fetch obj request w) as [settled w1] eqn:Hfetch.
    exists 0%nat, w1, settled. split; [|split; [|by left]].
    + apply attempts_last; [done|]. intros err _. right. lia.
    + apply (stubFetch_final _ _ _ _ _ _ _ _ Hreq Hfetch).
      destruct settled as [|err]; [done|].
      unfold shouldRetry, maxRetries.
      destruct (Z.gtb_spec n 10) as [_|Hle]; [done|lia].
  - destruct (handle_fetch obj request w) as [settled w1] eqn:Hfetch.
    destruct settled as [response|err].
    { exists 0%nat, w1, (Return response). split; [|split; [|by left]].
      - apply attempts_last; [done|]. by intros err.
      - by apply (stubFetch_final _ _ _ _ _ _ _ _ Hreq Hfetch). }
    destruct (shouldRetry err n) eqn:Hretry.
    + pose proof (shouldRetry_bound _ _ Hretry) as Hn. unfold maxRetries in Hn.
      assert (retryOn_test (exn_to_string err) = true) as Htransient.
      { unfold shouldRetry in Hretry. by destruct (n >? maxRetries)%Z. }
      destruct (IH (n + 1)%Z w1 ltac:(lia)) as (k & w2 & settled & Hrest & Hrun & Hk).
      exists (S k), w2, settled. split; [|split; [|right; lia]].
      * by eapply attempts_more.
      * rewrite (stubFetch_again _ _ _ _ _ _ _ _ Hreq Hfetch Hretry), Hrun. done.
    + exists 0%nat, w1, (Throw err). split; [|split; [|by left]].
      * apply attempts_last; [done|]. intros err' [= <-].
        unfold shouldRetry, maxRetries in Hretry.
        destruct (Z.gtb_spec n 10) as [Hgt|_]; [right; lia|by left].
      * by apply (stubFetch_final _ _ _ _ _ _ _ _ Hreq Hfetch).
Qed.


(** C7, as the code has it.  Without an identifier the resolver mints one,
    once per call, in the world the call is made in; a string of 64
    characters is parsed as a canonical id, not derived; any other string
    that is not empty is taken as a name, and the derived id does not depend
    on the world, so the same name gives the same id; a DurableObjectId is
    used as it is.  In each case the stub wraps the handle the namespace
    hands out for that id. *)
Theorem instance_resolution (namespace : Namespace) (options : val) (w : World) :
  getDurableGet namespace NoId options w
  = (Return (proxy_of (get namespace (fst (newUniqueId namespace w)) options)),
     snd (newUniqueId namespace w)) ∧
  (∀ s, String.length s = 64%nat →
        getDurableGet namespace (IdString s) options w
        = (i ← idFromString namespace s; mret (proxy_of (get namespace i options)), w)) ∧
  (∀ s, s ≠ "" → String.length s ≠ 64%nat →
        getDurableGet namespace (IdString s) options w
        = (Return (proxy_of (get namespace (idFromName namespace s) options)), w)) ∧
  (∀ i, getDurableGet namespace (IdObject i) options w
        = (Return (proxy_of (get namespace i options)), w)).
Proof.
  unfold getDurableGet, resolve_id. split; [|split; [|split]].
  - simpl. by destruct (newUniqueId namespace w).
  - intros s Hlen. simpl.
    destruct (String.eqb_spec s "") as [->|_]; [done|].
    by rewrite Hlen.
  - intros s Hne Hlen. simpl.
    destruct (String.eqb_spec s "") as [->|_]; [done|].
    by destruct (Nat.eqb_spec (String.length s) 64).
  - done.
Qed.

End WithHost.

Import Sample.

(** C3 fails as stated: the handle has a fetch of its own, and reading fetch
    through the stub yields a closure of the stub instead. *)
Lemma fetch_is_not_passed_through :
  @getDurableGet host namespace (IdString "counter") VUndefined quiet
  = (Return counter, quiet) ∧
  h_props (stub_obj counter) !! "fetch" = Some (PFun (Builtin "DurableObjectStub.fetch")) ∧
  fst (proxy_get counter "fetch") = Some (PFun (Allocated 0)) ∧
  fst (proxy_get counter "fetch") ≠ h_props (stub_obj counter) !! "fetch".
Proof.
  split; [vm_compute; reflexivity|].
  split; [vm_compute; reflexivity|].
  split; [vm_compute; reflexivity|].
  vm_compute. discriminate.
Qed.

Lemma native_property_is_passed_through_witness :
  proxy_get counter "id" = (Some (PVal (VStr "name-counter")), counter) ∧
  proxy_get counter "fetch" = (Some (PFun (Allocated 0)), counter) ∧
  @call_method host counter "fetch" [ARequest call_add; Data (VStr "init")] quiet
  = (Some (AResponse <$> fst (@fetch_call host (stub_obj counter)
                                [ARequest call_add; Data (VStr "init")] quiet),
           snd (@fetch_call host (stub_obj counter)
                  [ARequest call_add; Data (VStr "init")] quiet),
           [Forwarded [ARequest call_add; Data (VStr "init")]]), counter).
Proof.
  destruct (@native_property_is_passed_through host (stub_obj counter) counter
              "id" (PVal (VStr "name-counter")))
    as (Hid & Hfetch & _ & Hcall).
  - apply accessed_refl.
  - vm_compute; reflexivity.
  - discriminate.
  - vm_compute. intros Hin. repeat (apply elem_of_cons in Hin as [Hin|Hin]; [discriminate|]).
    by apply elem_of_nil in Hin.
  - split; [exact Hid|]. split; [exact Hfetch|]. apply Hcall.
Defined.



(** C7 fails as stated: the empty string is a string of a length other than
    64, and it is not taken as a name; the resolver mints an id for it. *)
Lemma empty_string_is_not_a_name :
  String.length "" ≠ 64%nat ∧
  @getDurableGet host namespace (IdString "") VUndefined quiet
  = (Return (proxy_of (handle_of {| id_text := "unique-0" |})),
     {| script := []; minted := 1 |}) ∧
  @getDurableGet host namespace (IdString "") VUndefined quiet
  ≠ (Return (proxy_of (@get host namespace (@idFromName host namespace "") VUndefined)), quiet).
Proof.
  split; [discriminate|]. split; [vm_compute; reflexivity|].
  vm_compute. discriminate.
Qed.

End Proxy.

(** ** The request router of createDurable *)

Module Router.
Import Js Itty DurableStub.

Lemma slash_code (c : ascii) :
  (nat_of_ascii c =? 47)%nat = true ↔ "/"%char = c.
Proof.
  rewrite Nat.eqb_eq. split.
  - intros Hc. rewrite <- (ascii_nat_embedding c), Hc. reflexivity.
  - by intros <-.
Qed.

(** A name without a slash is one segment. *)
Lemma segment_plain (m : string) :
  includes "/" m = false → segment m = (m, "").
Proof.
  induction m as [|c rest IH]; [done|].
  cbn [includes String.prefix].
  destruct (ascii_dec "/" c) as [Hc|Hc]; [by destruct rest|].
  cbn [orb]. intros Hrest. cbn [segment].
  destruct (nat_of_ascii c =? 47)%nat eqn:Hcode.
  - by apply slash_code in Hcode.
  - by rewrite (IH Hrest).
Qed.

Lemma route_prop_plain (m : string) :
  m ≠ "" → includes "/" m = false → route_prop ("/" +:+ m) = Some m.
Proof.
  intros Hne Hplain. change ("/" +:+ m) with (String "/" m). unfold route_prop.
  change (nat_of_ascii "/" =? 47)%nat with true. cbn iota.
  rewrite (segment_plain m Hplain).
  destruct (String.eqb_spec m "") as [->|_]; done.
Qed.

Section WithHost.
Context `{Host}.


End WithHost.

Import Sample.


End Router.

(** ** The tagged broadcast layer *)

Module Broadcast.
Import Js DurableWS Notions.

Lemma received_0 (msg : message) (ws : WebSocket) : received 0 msg ws = ws.
Proof. destruct ws. unfold received. simpl. by rewrite app_nil_r. Qed.

Lemma received_S (k : nat) (msg : message) (ws : WebSocket) :
  received k msg (received 1 msg ws) = received (S k) msg ws.
Proof. unfold received. simpl. by rewrite <- app_assoc. Qed.

Lemma closed_0 (ws : WebSocket) : closed 0 ws = ws.
Proof. by destruct ws. Qed.

Lemma closed_S (k : nat) (ws : WebSocket) : closed k (closed 1 ws) = closed (S k) ws.
Proof. unfold closed. simpl. f_equal. lia. Qed.

(** A [send] that goes through appends the message to the outbox of its
    socket and touches no other socket. *)
Lemma ws_push_lookup (msg : message) (state : DurableObjectState) (a w : nat) :
  sockets (ws_push msg state a) !! w
  = (if Nat.eq_dec a w then received 1 msg else id) <$> sockets state !! w.
Proof.
  unfold ws_push. cbn [sockets]. rewrite list_lookup_alter.
  destruct (Nat.eq_dec a w) as [->|Hne].
  - rewrite decide_True by done. by destruct (sockets state !! w).
  - rewrite decide_False by done. by destruct (sockets state !! w).
Qed.

Lemma all_open_cons (state : DurableObjectState) (a : nat) (l : list nat) :
  all_open state (a :: l) → all_open state l.
Proof. intros Hopen w ws Hin. apply Hopen. by right. Qed.

Lemma all_open_ws_push (msg : message) (state : DurableObjectState) (a : nat)
    (l : list nat) :
  all_open state l → all_open (ws_push msg state a) l.
Proof.
  intros Hopen w ws Hin. rewrite ws_push_lookup.
  destruct (sockets state !! w) as [ws0|] eqn:Hw; [|done].
  pose proof (Hopen w ws0 Hin Hw) as H0.
  simpl. intros [= <-]. by destruct (Nat.eq_dec a w).
Qed.

(** What [forEach(w => w.send(message))] leaves in the store when no call of
    [send] throws: every socket has received the message as often as the list
    names it. *)
Lemma send_each (msg : message) (l : list nat) (state : DurableObjectState) :
  all_open state l →
  fst (forEach_send msg l state) = Return tt ∧
  ∀ w, sockets (snd (forEach_send msg l state)) !! w
       = received (count_occ Nat.eq_dec l w) msg <$> sockets state !! w.
Proof.
  revert state. induction l as [|a l IH]; intros state Hopen.
  - split; [done|]. intros w. simpl.
    destruct (sockets state !! w) as [ws|]; [|done].
    simpl. by rewrite received_0.
  - cbn [forEach_send]. unfold ws_send.
    destruct (sockets state !! a) as [wa|] eqn:Ha.
    + rewrite (Hopen a wa (or_introl eq_refl) Ha). cbn [Nat.eqb].
      destruct (IH (ws_push msg state a)) as [Hret Hlook].
      { apply all_open_ws_push. by apply (all_open_cons _ a). }
      split; [done|]. intros w. rewrite Hlook, ws_push_lookup. cbn [count_occ].
      destruct (Nat.eq_dec a w) as [->|Hne].
      * destruct (sockets state !! w) as [ws|]; [|done].
        simpl. f_equal. apply received_S.
      * by destruct (sockets state !! w).
    + destruct (IH state) as [Hret Hlook]; [by apply (all_open_cons _ a)|].
      split; [done|]. intros w. rewrite Hlook. cbn [count_occ].
      destruct (Nat.eq_dec a w) as [->|Hne]; [|done].
      by rewrite Ha.
Qed.

(** The first call of [send] that throws ends the loop: the sockets before it
    have received the message, the ones after it have not been visited. *)
Lemma send_each_stops (msg : message) (before : list nat) (v : nat) (after : list nat) :
  ∀ (state : DurableObjectState) (vs : WebSocket),
  all_open state before →
  sockets state !! v = Some vs →
  ws_closes vs ≠ 0%nat →
  fst (forEach_send msg (before ++ v :: after) state)
  = Throw (TypeError "Can't call WebSocket send() after close().") ∧
  ∀ w, sockets (snd (forEach_send msg (before ++ v :: after) state)) !! w
       = received (count_occ Nat.eq_dec before w) msg <$> sockets state !! w.
Proof.
  induction before as [|a l IH]; intros state vs Hopen Hv Hclosed.
  - cbn [app forEach_send]. unfold ws_send. rewrite Hv.
    destruct (ws_closes vs) as [|c] eqn:Hc; [done|]. cbn [Nat.eqb].
    split; [done|]. intros w. simpl.
    destruct (sockets state !! w) as [ws|]; [|done].
    simpl. by rewrite received_0.
  - change ((a :: l) ++ v :: after) with (a :: (l ++ v :: after)).
    cbn [forEach_send]. unfold ws_send.
    destruct (sockets state !! a) as [wa|] eqn:Ha.
    + rewrite (Hopen a wa (or_introl eq_refl) Ha). cbn [Nat.eqb].
      assert (∃ vs', sockets (ws_push msg state a) !! v = Some vs'
                     ∧ ws_closes vs' = ws_closes vs) as (vs' & Hv' & Hc').
      { rewrite ws_push_lookup, Hv. simpl. eexists. split; [done|].
        by destruct (Nat.eq_dec a v). }
      destruct (IH (ws_push msg state a) vs') as [Hret Hlook].
      { apply all_open_ws_push. by apply (all_open_cons _ a). }
      { done. }
      { by rewrite Hc'. }
      split; [done|]. intros w. rewrite Hlook, ws_push_lookup. cbn [count_occ].
      destruct (Nat.eq_dec a w) as [->|Hne].
      * destruct (sockets state !! w) as [ws|]; [|done].
        simpl. f_equal. apply received_S.
      * by destruct (sockets state !! w).
    + destruct (IH state vs) as [Hret Hlook]; [by apply (all_open_cons _ a)|done|done|].
      split; [done|]. intros w. rewrite Hlook. cbn [count_occ].
      destruct (Nat.eq_dec a w) as [->|Hne]; [|done].
      by rewrite Ha.
Qed.

Lemma close_each (l : list nat) (state : DurableObjectState) (w : nat) :
  sockets (fold_left ws_close l state) !! w
  = closed (count_occ Nat.eq_dec l w) <$> sockets state !! w.
Proof.
  revert state. induction l as [|a l IH]; intros state.
  - simpl. destruct (sockets state !! w) as [ws|]; [|done].
    simpl. by rewrite closed_0.
  - cbn [fold_left]. rewrite IH. unfold ws_close. cbn [sockets].
    rewrite list_lookup_alter. cbn [count_occ].
    destruct (Nat.eq_dec a w) as [->|Hne].
    + rewrite decide_True by done.
      destruct (sockets state !! w) as [ws|]; [|done].
      simpl. f_equal. apply closed_S.
    + by rewrite decide_False.
Qed.

(** The connections [getWebSockets] reports. *)
Lemma In_getWebSockets (state : DurableObjectState) (tag : option string) (w : nat) :
  In w (getWebSockets state tag)
  ↔ ∃ ws, sockets state !! w = Some ws ∧ reported tag ws = true.
Proof.
  unfold getWebSockets. rewrite filter_In, in_seq. split.
  - intros [_ Hw]. destruct (sockets state !! w) as [ws|]; [eauto|done].
  - intros (ws & Hws & Hrep). split.
    + apply lookup_lt_Some in Hws. lia.
    + by rewrite Hws.
Qed.

Lemma NoDup_getWebSockets (state : DurableObjectState) (tag : option string) :
  List.NoDup (getWebSockets state tag).
Proof. apply List.NoDup_filter, seq_NoDup. Qed.

(** [getWebSockets] names a connection once or not at all. *)
Lemma count_getWebSockets (state : DurableObjectState) (tag : option string)
    (w : nat) (ws : WebSocket) :
  sockets state !! w = Some ws →
  count_occ Nat.eq_dec (getWebSockets state tag) w
  = if reported tag ws then 1%nat else 0%nat.
Proof.
  intros Hws.
  pose proof (proj1 (NoDup_count_occ Nat.eq_dec _) (NoDup_getWebSockets state tag) w)
    as Hle.
  destruct (reported tag ws) eqn:Hrep.
  - assert (In w (getWebSockets state tag)) as Hin
      by (apply In_getWebSockets; eauto).
    apply (count_occ_In Nat.eq_dec) in Hin. lia.
  - apply count_occ_not_In. rewrite In_getWebSockets.
    intros (ws' & Hws' & Hrep'). congruence.
Qed.

(** A list of tags names a connection once for each of the tags, repeated
    ones included, under which the connection is reported. *)
Lemma visits_Tags (state : DurableObjectState) (ts : list string) (w : nat) (ws : WebSocket) :
  sockets state !! w = Some ws →
  visits state (Tags ts) w
  = length (List.filter (fun t => reported (Some t) ws) ts).
Proof.
  intros Hws. unfold visits. cbn [resolve].
  induction ts as [|t ts IH]; [done|].
  cbn [flat_map List.filter].
  rewrite count_occ_app, IH, (count_getWebSockets _ _ _ _ Hws).
  by destruct (reported (Some t) ws).
Qed.

(** C2, as the code has it.  As long as no connection the selector resolves
    to has had [close] called on it, so that no call of [send] throws,
    [sendTo] returns and has sent the message to a connection once for every
    time the selector resolves to it.  Otherwise the first call of [send] on
    such a connection throws and [sendTo] throws with it: a connection has
    then been sent the message once for every time the selector resolves to
    it before that call, and the later calls of [send] are not made.
    [close] closes a connection once for every time the selector resolves
    to it.  'all' resolves once to every connection the runtime reports,
    which are the accepted connections.  A list of tags resolves to a
    connection once for each tag of the list, repeats counted, under which
    the runtime reports it: at least once exactly when the connection is
    accepted and carries one of the tags, and to no other connection. *)
Theorem broadcast_follows_the_selector (state : DurableObjectState) (tags : selector)
    (msg : message) (w : nat) (ws : WebSocket) :
  sockets state !! w = Some ws →
  (all_open state (resolve state tags) →
   fst (sendTo tags msg state) = Return tt ∧
   sockets (snd (sendTo tags msg state)) !! w
   = Some (received (visits state tags w) msg ws)) ∧
  (∀ before v after vs,
     resolve state tags = before ++ v :: after →
     all_open state before →
     sockets state !! v = Some vs →
     ws_closes vs ≠ 0%nat →
     (∃ text, fst (sendTo tags msg state) = Throw (TypeError text)) ∧
     sockets (snd (sendTo tags msg state)) !! w
     = Some (received (count_occ Nat.eq_dec before w) msg ws)) ∧
  sockets (close tags state) !! w = Some (closed (visits state tags w) ws) ∧
  visits state All w = (if reported None ws then 1 else 0)%nat ∧
  (∀ ts, visits state (Tags ts) w
         = length (List.filter (fun t => reported (Some t) ws) ts)) ∧
  (∀ ts, (0 < visits state (Tags ts) w)%nat
         ↔ ∃ t, In t ts ∧ reported (Some t) ws = true).
Proof.
  intros Hws.
  split; [|split; [|split; [|split; [|split]]]].
  - intros Hopen. unfold sendTo, visits.
    destruct (send_each msg _ _ Hopen) as [Hret Hlook].
    split; [done|]. by rewrite Hlook, Hws.
  - intros before v after vs Hresolve Hopen Hv Hclosed. unfold sendTo.
    rewrite Hresolve.
    destruct (send_each_stops msg before v after state vs Hopen Hv Hclosed)
      as [Hthrow Hlook].
    split; [by eexists|]. by rewrite Hlook, Hws.
  - unfold close, visits. by rewrite close_each, Hws.
  - unfold visits. cbn [resolve]. by apply count_getWebSockets.
  - intros ts. by apply visits_Tags.
  - intros ts. rewrite (visits_Tags _ _ _ _ Hws).
    induction ts as [|t ts IH]; cbn [List.filter].
    + split; [simpl; lia|]. by intros (t & [] & _).
    + destruct (reported (Some t) ws) eqn:Hrep.
      * split; [|simpl; lia]. intros _. exists t. split; [by left|done].
      * rewrite IH. split.
        -- intros (t' & Hin & Hrep'). exists t'. split; [by right|done].
        -- intros (t' & [<-|Hin] & Hrep'); [congruence|eauto].
Qed.

Lemma upgrade_state (tags : list string) (l : list WebSocket) :
  alter (fun s => {| ws_tags := ws_tags s; ws_attachment := Some tags;
                     ws_outbox := ws_outbox s; ws_closes := ws_closes s |})
    (S (length l))
    (alter (fun s => {| ws_tags := Some tags; ws_attachment := ws_attachment s;
                        ws_outbox := ws_outbox s; ws_closes := ws_closes s |})
       (S (length l)) (l ++ [fresh_socket; fresh_socket]))
  = l ++ [fresh_socket;
          {| ws_tags := Some tags; ws_attachment := Some tags;
             ws_outbox := []; ws_closes := 0 |}].
Proof.
  replace (S (length l)) with (length l + 1)%nat by lia.
  by rewrite !alter_app_r.
Qed.

(** C8. Without the header Upgrade: websocket the handler answers 426; with
    it, and a classifier that returns null, it answers 400; in both cases the
    state is as before, so no connection is accepted.  Otherwise it creates a
    pair of sockets, accepts the server end under the tags of the classifier,
    stores these tags as the attachment of the server end, and answers 101
    with the client end; the runtime then reports the server end under
    exactly those tags, and every other connection as before. *)
Theorem upgrade_handshake (getTags : Request → option (list string))
    (request : Request) (state : DurableObjectState) :
  (headers_get (req_headers request) "Upgrade" ≠ Some "websocket" →
   ∃ r, upgrade getTags request state = (r, state) ∧
        resp_status r = 426%Z ∧ resp_webSocket r = None) ∧
  (headers_get (req_headers request) "Upgrade" = Some "websocket" →
   getTags request = None →
   ∃ r, upgrade getTags request state = (r, state) ∧
        resp_status r = 400%Z ∧ resp_webSocket r = None) ∧
  (∀ tags,
     headers_get (req_headers request) "Upgrade" = Some "websocket" →
     getTags request = Some tags →
     let client := length (sockets state) in
     let server := S client in
     ∃ r state',
       upgrade getTags request state = (r, state') ∧
       resp_status r = 101%Z ∧
       resp_webSocket r = Some client ∧
       sockets state'
       = (sockets state ++
          [fresh_socket;
           {| ws_tags := Some tags; ws_attachment := Some tags;
              ws_outbox := []; ws_closes := 0 |}])%list ∧
       ∀ tag w,
         In w (getWebSockets state' tag)
         ↔ In w (getWebSockets state tag)
           ∨ (w = server ∧ match tag with
                           | Some t => t ∈ tags
                           | None => True
                           end)).
Proof.
  split; [|split].
  - intros Hheader. unfold upgrade.
    destruct (headers_get (req_headers request) "Upgrade") as [v|]; [|simpl; eauto].
    rewrite (bool_decide_eq_false_2 _ Hheader), orb_true_r. simpl. eauto.
  - intros Hheader Hnull. unfold upgrade. rewrite Hheader, Hnull.
    rewrite bool_decide_eq_true_2 by done. simpl. eauto.
  - intros tags Hheader Htags client server. unfold upgrade.
    rewrite Hheader, Htags. rewrite bool_decide_eq_true_2 by done.
    cbn [no_header String.eqb Ascii.eqb Bool.eqb orb negb WebSocketPair].
    unfold serializeAttachment, acceptWebSocket. cbn [sockets].
    rewrite upgrade_state.
    eexists _, _. split; [reflexivity|]. split; [done|]. split; [done|].
    split; [done|].
    intros tag w. rewrite !In_getWebSockets. cbn [sockets].
    fold client. split.
    + intros (ws & Hws & Hrep).
      destruct (decide (w < client)%nat) as [Hlt|Hge].
      * left. exists ws. by rewrite lookup_app_l in Hws.
      * right. rewrite lookup_app_r in Hws by (unfold client in *; lia).
        fold client in Hws.
        destruct (w - client)%nat as [|[|n]] eqn:Hw; simpl in Hws;
          [injection Hws as <-; discriminate| |done].
        injection Hws as <-. split; [unfold server; lia|].
        unfold reported in Hrep. simpl in Hrep.
        destruct tag as [t|]; [|done]. by apply bool_decide_eq_true in Hrep.
    + intros [(ws & Hws & Hrep)|[-> Htag]].
      * exists ws. split; [|done]. by apply lookup_app_l_Some.
      * eexists. split.
        { rewrite lookup_app_r by (unfold server, client; lia).
          unfold server. fold client.
          replace (S client - client)%nat with 1%nat by lia. reflexivity. }
        unfold reported. simpl.
        destruct tag as [t|]; [|done]. by apply bool_decide_eq_true.
Qed.

(** C10, as the code has it.  The object [durableWS] returns has, as its own
    properties, the own enumerable properties of the API object of the
    wrapped actor, each with its value, and no other; beyond them it has what
    every object literal inherits.  So a name that is no own property of the
    API object, a handler name such as webSocketMessage among them, is not
    defined by the layer. *)
Theorem durableWS_copies_own_enumerable {Env : Type}
    (wrapped : DurableWS → DurableObjectState → Env → obj)
    (state : DurableObjectState) (env : Env) :
  let api := wrapped cws state env in
  let result := durableWS wrapped state env in
  (∀ k p, own api !! k = Some p → p_enumerable p = true →
          own result !! k = Some {| p_value := p_value p; p_enumerable := true |} ∧
          obj_get result k = Some (p_value p)) ∧
  (∀ k q, own result !! k = Some q →
          ∃ p, own api !! k = Some p ∧ p_enumerable p = true ∧ p_value q = p_value p) ∧
  inherited result = Object_prototype ∧
  (∀ k, own api !! k = None → obj_get result k = Object_prototype !! k).
Proof.
  intros api result. unfold result, durableWS. fold api.
  unfold obj_spread, obj_get. cbn [own inherited].
  split; [|split; [|split; [done|]]].
  - intros k p Hk Hen. rewrite lookup_fmap.
    rewrite (map_lookup_filter_Some_2 _ _ _ _ Hk Hen). done.
  - intros k q. rewrite lookup_fmap. intros Hq.
    apply fmap_Some in Hq as (p & Hp & ->).
    apply map_lookup_filter_Some in Hp as [Hp Hen]. eauto.
  - intros k Hk. rewrite lookup_fmap.
    destruct (filter _ (own api) !! k) as [p|] eqn:Hp; [|done].
    apply map_lookup_filter_Some in Hp as [Hp _]. congruence.
Qed.

Import Sample.

Lemma lobby_open (targets : list nat) : all_open lobby targets.
Proof.
  intros v vs _ Hv. destruct v as [|[|[|v]]]; simpl in Hv;
    [by injection Hv as <- ..|done].
Qed.

(** C2 fails as stated: a connection accepted under two tags of the list is
    sent the message twice, and closed twice. *)
Lemma doubly_tagged_connection_is_sent_twice :
  resolve lobby (Tags ["x"; "y"]) = [0; 0; 1]%nat ∧
  fst (sendTo (Tags ["x"; "y"]) (Text "hi") lobby) = Return tt ∧
  ws_outbox <$> sockets (snd (sendTo (Tags ["x"; "y"]) (Text "hi") lobby)) !! 0%nat
  = Some [Text "hi"; Text "hi"] ∧
  ws_closes <$> sockets (close (Tags ["x"; "y"]) lobby) !! 0%nat = Some 2%nat.
Proof. repeat split; vm_compute; reflexivity. Qed.

Lemma closing_lobby_first_open :
  all_open closing_lobby [0%nat].
Proof. intros w ws [<-|[]] Hw. by injection Hw as <-. Qed.

Lemma broadcast_follows_the_selector_witness :
  all_open lobby (resolve lobby (Tags ["y"])) ∧
  fst (sendTo (Tags ["y"]) (Text "hi") lobby) = Return tt ∧
  ws_outbox <$> sockets (snd (sendTo (Tags ["y"]) (Text "hi") lobby)) !! 1%nat
  = Some [Text "hi"] ∧
  ws_outbox <$> sockets (snd (sendTo All (Text "hi") lobby)) !! 1%nat
  = Some [Text "hi"] ∧
  ws_closes <$> sockets (close (Tags ["y"]) lobby) !! 1%nat = Some 1%nat ∧
  (∃ text, fst (sendTo All (Text "hi") closing_lobby) = Throw (TypeError text)) ∧
  ws_outbox <$> sockets (snd (sendTo All (Text "hi") closing_lobby)) !! 2%nat
  = Some [].
Proof.
  pose (ws := {| ws_tags := Some ["y"]; ws_attachment := Some ["y"];
                 ws_outbox := []; ws_closes := 0 |}).
  pose (closing := {| ws_tags := Some ["x"]; ws_attachment := Some ["x"];
                      ws_outbox := []; ws_closes := 1 |}).
  pose (last := {| ws_tags := Some ["x"]; ws_attachment := Some ["x"];
                   ws_outbox := []; ws_closes := 0 |}).
  destruct (broadcast_follows_the_selector lobby (Tags ["y"]) (Text "hi") 1 ws eq_refl)
    as (Hsend & _ & Hclose & _ & Hcount & _).
  destruct (broadcast_follows_the_selector lobby All (Text "hi") 1 ws eq_refl)
    as (Hall & _ & _ & Hone & _).
  destruct (broadcast_follows_the_selector closing_lobby All (Text "hi") 2 last eq_refl)
    as (_ & Hstop & _).
  destruct (Hsend (lobby_open _)) as [Hret Hsent].
  destruct (Hall (lobby_open _)) as [_ Hsent_all].
  destruct (Hstop [0%nat] 1%nat [2%nat] closing eq_refl closing_lobby_first_open eq_refl
              ltac:(discriminate)) as [Hthrow Hlater].
  split; [apply lobby_open|].
  rewrite Hret, Hsent, Hclose, Hsent_all, Hcount, Hone, Hlater.
  repeat split. exact Hthrow.
Defined.

(** C10 fails as stated: a handler that the API object inherits from its
    class is a property of the API object, and the returned object lacks
    it. *)
Lemma inherited_handler_is_dropped :
  obj_get instance_api "webSocketMessage" = Some (PFun (Defined 0)) ∧
  obj_get (durableWS (fun _ _ (_ : unit) => instance_api) lobby tt) "webSocketMessage"
  = None ∧
  obj_get (durableWS (fun _ _ (_ : unit) => instance_api) lobby tt) "version"
  = Some (PVal (VNum 3)).
Proof. repeat split; vm_compute; reflexivity. Qed.

End Broadcast.

(** ** More on the retry policy *)

Module RetryMore.
Import Js Itty DurableStub Notions Measures Retry Proxy.

Lemma includes_append (p a s : string) :
  includes p s = true → includes p (a +:+ s) = true.
Proof.
  intros Hs. induction a as [|c a IH]; [done|].
  change (String c a +:+ s) with (String c (a +:+ s)).
  cbn [includes]. rewrite IH. apply orb_true_r.
Qed.

Lemma total_wait_retry_log (request : Request) (n : Z) (k : nat) :
  (0 ≤ n)%Z →
  total_wait (retry_log request n k) = (10 * 2 ^ n * (2 ^ Z.of_nat k - 1))%Z.
Proof.
  revert n. induction k as [|k IH]; intros n Hn.
  - cbn. lia.
  - cbn [retry_log total_wait fold_right].
    change (fold_right _ 0%Z ?l) with (total_wait l).
    rewrite IH by lia.
    rewrite Nat2Z.inj_succ, !Z.pow_succ_r by lia.
    rewrite Z.pow_add_r by lia. lia.
Qed.

Lemma length_requests_retry_log (request : Request) (n : Z) (k : nat) :
  length (requests (retry_log request n k)) = S k.
Proof. by rewrite requests_retry_log, length_replicate. Qed.

Section WithHost.
Context `{Host}.

(** X1. Every call of a stub method settles after at most twelve requests
    and at most 20470 milliseconds of backoff; the backoff after r requests
    adds up to 10 * (2^(r-1) - 1) milliseconds. *)
Theorem call_is_bounded (obj : Handle) (prop : string) (content : val) (w : World) :
  ∃ outcome w1 log,
    stubFetch obj prop content 0 w = Some (outcome, w1, log) ∧
    (length (requests log) ≤ 12)%nat ∧
    (0 ≤ total_wait log ≤ 20470)%Z ∧
    total_wait log = (10 * (2 ^ Z.of_nat (length (requests log) - 1) - 1))%Z.
Proof.
  destruct (stubFetch_settles obj prop content 0 w) as (outcome & w1 & log & Hrun).
  exists outcome, w1, log. split; [done|].
  destruct (createRequest prop content) as [request|e] eqn:Hreq.
  - destruct (stubFetch_loop_shape _ _ _ _ _ _ _ _ _ _ Hreq Hrun) as (k & -> & Hk).
    assert (k ≤ 11)%nat as Hk' by (unfold maxRetries in Hk; lia).
    rewrite length_requests_retry_log, total_wait_retry_log by lia.
    replace (S k - 1)%nat with k by lia.
    assert (1 ≤ 2 ^ Z.of_nat k ≤ 2 ^ 11)%Z as Hpow.
    { split; [|apply Z.pow_le_mono_r; lia].
      pose proof (Z.pow_pos_nonneg 2 (Z.of_nat k)). lia. }
    change (2 ^ 11)%Z with 2048%Z in Hpow. change (2 ^ 0)%Z with 1%Z.
    repeat split; lia.
  - unfold stubFetch in Hrun. simpl in Hrun. rewrite Hreq in Hrun.
    injection Hrun as <- <- <-. cbn. repeat split; lia.
Qed.

(** The attempt that decides a call is a call of the transport. *)
Lemma attempts_last_fetch (obj : Handle) (request : Request) (n : Z) (w : World)
    (k : nat) (w1 : World) (settled : completion Response) :
  attempts obj request n w k w1 settled →
  ∃ w0, handle_fetch obj request w0 = (settled, w1).
Proof. induction 1 as [n w settled w1 Hfetch _|]; [by exists w|done]. Qed.

(** While the transport fails in the transient way, the attempts go on up to
    the count of 11, and the deciding attempt fails in the same way. *)
Lemma outage_attempts (obj : Handle) (request : Request) :
  (∀ w0, ∃ err w1, handle_fetch obj request w0 = (Throw err, w1) ∧
                   retryOn_test (exn_to_string err) = true) →
  ∀ n w k w1 settled,
    attempts obj request n w k w1 settled →
    (n ≤ 11)%Z →
    (Z.of_nat k = 11 - n)%Z ∧
    ∃ err, settled = Throw err ∧ retryOn_test (exn_to_string err) = true.
Proof.
  intros Hdown n w k w1 settled Hrun.
  induction Hrun as [n w settled w1 Hfetch Hstop|n w err w1 k w2 settled Hfetch Htr Hn Hrest IH];
    intros Hle.
  - destruct (Hdown w) as (err & w1' & Hfetch' & Htransient).
    rewrite Hfetch in Hfetch'. injection Hfetch' as -> ->.
    destruct (Hstop err eq_refl) as [Hno|Hn]; [congruence|].
    split; [lia|]. by exists err.
  - destruct (IH ltac:(lia)) as [Hk Hlast]. split; [lia|done].
Qed.

(** X2. While every attempt fails in the transient way, a call sends its
    request twelve times: each of the first eleven attempts fails and is
    followed by another, and the twelfth is a call of the transport that
    fails with an error with which the call then rejects.  The waits add up
    to 20470 milliseconds. *)
Theorem outage_exhausts_the_retries (obj : Handle) (prop : string) (content : val)
    (request : Request) (w : World) :
  createRequest prop content = Return request →
  (∀ w0, ∃ err w1, handle_fetch obj request w0 = (Throw err, w1) ∧
                   retryOn_test (exn_to_string err) = true) →
  ∃ err w_last w1,
    attempts obj request 0 w 11 w1 (Throw err) ∧
    handle_fetch obj request w_last = (Throw err, w1) ∧
    stubFetch obj prop content 0 w = Some (Throw err, w1, retry_log request 0 11) ∧
    retryOn_test (exn_to_string err) = true ∧
    requests (retry_log request 0 11) = replicate 12 request ∧
    total_wait (retry_log request 0 11) = 20470%Z.
Proof.
  intros Hreq Hdown.
  destruct (stubFetch_follows_attempts obj prop content request Hreq 11 0 w ltac:(lia))
    as (k & w1 & settled & Hattempts & Hrun & _).
  destruct (outage_attempts obj request Hdown _ _ _ _ _ Hattempts ltac:(lia))
    as (Hk & err & -> & Htransient).
  assert (k = 11%nat) as -> by lia.
  destruct (attempts_last_fetch _ _ _ _ _ _ _ Hattempts) as (w_last & Hlast).
  exists err, w_last, w1.
  split; [done|]. split; [done|]. split; [exact Hrun|]. split; [done|].
  split; [apply requests_retry_log|].
  rewrite total_wait_retry_log by lia. reflexivity.
Qed.

End WithHost.

(** X4. The retry policy classifies by substring: an Error object whose
    message holds one of the transient texts anywhere is retried at every
    count up to 10, whatever its name and status. *)
Theorem transient_by_substring (name message pattern : string) (status : option Z) (n : Z) :
  In pattern retryOn →
  includes pattern message = true →
  (n ≤ 10)%Z →
  shouldRetry (ErrorObject name message status) n = true.
Proof.
  intros Hin Hmsg Hn. unfold shouldRetry, maxRetries.
  destruct (n >? 10)%Z eqn:Hgt; [lia|].
  unfold retryOn_test. apply existsb_exists. exists pattern. split; [done|].
  cbn [exn_to_string].
  destruct (String.eqb_spec name "") as [_|_]; [done|].
  destruct (String.eqb_spec message "") as [->|_].
  - exfalso. repeat (destruct Hin as [<-|Hin]; [discriminate Hmsg|]). done.
  - by do 2 apply includes_append.
Qed.

Import Sample Cases.

Lemma outage_exhausts_the_retries_witness :
  ∃ err w_last w1,
    @attempts outage (stub_obj counter) call_add 0 tt 11 w1 (Throw err) ∧
    @handle_fetch outage (stub_obj counter) call_add w_last = (Throw err, w1) ∧
    @stubFetch outage (stub_obj counter) "add" (VArr [VNum 1; VNum 2]) 0 tt
    = Some (Throw err, w1, retry_log call_add 0 11) ∧
    retryOn_test (exn_to_string err) = true ∧
    requests (retry_log call_add 0 11) = replicate 12 call_add ∧
    total_wait (retry_log call_add 0 11) = 20470%Z.
Proof.
  apply (@outage_exhausts_the_retries outage).
  - vm_compute; reflexivity.
  - intros w0. exists lost, w0. split; vm_compute; reflexivity.
Defined.

Lemma transient_by_substring_witness :
  shouldRetry
    (ErrorObject "TypeError" "fetch failed: Network connection lost. Try again" None) 10
  = true.
Proof.
  apply (transient_by_substring _ _ "Network connection lost").
  - left. reflexivity.
  - vm_compute; reflexivity.
  - lia.
Defined.

End RetryMore.

(** ** More on the stub proxy *)

Module ProxyMore.
Import Js Itty DurableStub Notions Measures Retry Proxy.

Lemma fetch_is_no_prototype_name : "fetch" ∉ Object_prototype_names.
Proof.
  intros Hin. vm_compute in Hin.
  repeat (apply elem_of_cons in Hin as [Hin|Hin]; [discriminate|]).
  by apply elem_of_nil in Hin.
Qed.

(** The first read of a name the handle does not have: a closure of the
    stub, cached under the name. *)
Lemma read_unknown (h : Handle) (s : Stub) (m : string) :
  accessed (proxy_of h) s →
  h_props h !! m = None →
  m ≠ "fetch" →
  m ∉ Object_prototype_names →
  ∃ loc,
    proxy_get s m = (Some (PFun (Allocated loc)), snd (proxy_get s m)) ∧
    stub_methods (snd (proxy_get s m)) !! m = Some loc ∧
    stub_closures (snd (proxy_get s m)) !! loc = Some (Invoker m) ∧
    stub_obj (snd (proxy_get s m)) = h.
Proof.
  intros Hreach Hm Hne Hproto.
  pose proof (accessed_inv h _ _ (proxy_of_inv h) Hreach) as Hinv.
  pose proof (proxy_get_inv h s m Hinv) as (Hobj & _ & _ & Hrest).
  assert (∃ loc, proxy_get s m = (Some (PFun (Allocated loc)), snd (proxy_get s m))
                 ∧ stub_methods (snd (proxy_get s m)) !! m = Some loc)
    as (loc & Hget & Hcached).
  { unfold proxy_get. destruct (methods_has s m) eqn:Hhas.
    - unfold methods_get. unfold methods_has in Hhas.
      rewrite (bool_decide_eq_false_2 (m ∈ _)) in Hhas by done.
      rewrite orb_false_r in Hhas. apply bool_decide_eq_true in Hhas as [loc Hloc].
      rewrite Hloc. eauto.
    - destruct Hinv as (-> & _). rewrite Hm.
      rewrite bool_decide_eq_false_2 by (by intros [? ?]).
      eexists. split; [done|]. cbn [snd stub_methods]. by rewrite lookup_insert_eq. }
  exists loc. destruct (Hrest m loc Hcached Hne) as (Hclosure & _ & _). done.
Qed.

(** The cache never maps two names to one closure. *)
Lemma cache_is_injective (h : Handle) (s : Stub) (p q : string) (loc : nat) :
  stub_inv h s →
  stub_methods s !! p = Some loc →
  stub_methods s !! q = Some loc →
  p = q.
Proof.
  intros (_ & Hfetch & Hzero & Hrest) Hp Hq.
  destruct (decide (p = "fetch")) as [->|Hpf], (decide (q = "fetch")) as [->|Hqf].
  - done.
  - destruct (Hrest q loc Hq Hqf) as (Hc & _). congruence.
  - destruct (Hrest p loc Hp Hpf) as (Hc & _). congruence.
  - destruct (Hrest p loc Hp Hpf) as (Hcp & _), (Hrest q loc Hq Hqf) as (Hcq & _).
    congruence.
Qed.

Section WithHost.
Context `{Host}.

(** A call of a name the handle does not have is a call of [stubFetch]. *)
Lemma call_unknown (h : Handle) (s : Stub) (m : string) (args : list any) (w : World) :
  accessed (proxy_of h) s →
  h_props h !! m = None →
  m ≠ "fetch" →
  m ∉ Object_prototype_names →
  call_method s m args w
  = (stubFetch h m (array_of args) 0 w, snd (proxy_get s m)).
Proof.
  intros Hreach Hm Hne Hproto.
  destruct (read_unknown h s m Hreach Hm Hne Hproto)
    as (loc & Hget & _ & Hclosure & Hobj).
  unfold call_method. rewrite Hget. cbn [snd]. by rewrite Hclosure, Hobj.
Qed.

(** X3. A call whose arguments JSON cannot serialise sends nothing: it
    rejects with the TypeError of JSON.stringify, and the world is as
    before. *)
Theorem unserialisable_arguments_send_nothing (h : Handle) (s : Stub) (m : string)
    (args : list any) (w : World) :
  accessed (proxy_of h) s →
  h_props h !! m = None →
  m ≠ "fetch" →
  m ∉ Object_prototype_names →
  has_bigint (array_of args) = true →
  fst (call_method s m args w)
  = Some (Throw (TypeError "Do not know how to serialize a BigInt"), w, []).
Proof.
  intros Hreach Hm Hne Hproto Hbig.
  rewrite (call_unknown h s m args w Hreach Hm Hne Hproto). cbn [fst].
  unfold stubFetch. cbn [stubFetch_loop].
  unfold createRequest, JSON_stringify. by rewrite Hbig.
Qed.

(** X5. [stub.fetch(...args)] calls the fetch of the handle once, with all
    the arguments it was given, and settles as that fetch does, with the
    Response itself: it is neither retried, whatever the error, nor decoded,
    and the stub stays as it is. *)
Theorem raw_fetch_is_sent_once (h : Handle) (s : Stub) (args : list any) (w : World) :
  accessed (proxy_of h) s →
  call_method s "fetch" args w
  = (Some (AResponse <$> fst (fetch_call h args w),
           snd (fetch_call h args w), [Forwarded args]), s).
Proof.
  intros Hreach.
  destruct (accessed_inv h _ _ (proxy_of_inv h) Hreach) as (Hobj & Hfetch & Hzero & _).
  unfold call_method. rewrite (proxy_get_cached _ _ _ Hfetch), Hzero, Hobj.
  cbn [call_closure]. by destruct (fetch_call h args w).
Qed.

End WithHost.

(** X6. A name of Object.prototype is answered from the method table of the
    stub, which is an object literal: reading it yields the member of
    Object.prototype, whatever the handle has under that name. *)
Theorem prototype_names_shadow_the_handle (h : Handle) (s : Stub) (p : string) :
  accessed (proxy_of h) s →
  p ∈ Object_prototype_names →
  proxy_get s p = (Object_prototype !! p, s).
Proof.
  intros Hreach Hp.
  destruct (accessed_inv h _ _ (proxy_of_inv h) Hreach) as (_ & _ & _ & Hrest).
  unfold proxy_get, methods_has, methods_get.
  rewrite (bool_decide_eq_true_2 (p ∈ _) Hp), orb_true_r.
  destruct (stub_methods s !! p) as [loc|] eqn:Hloc; [|done].
  assert (p ≠ "fetch") as Hne.
  { intros ->. by apply fetch_is_no_prototype_name. }
  by destruct (Hrest p loc Hloc Hne) as (_ & _ & Hnot).
Qed.

(** X7. Two different method names never share a function: the functions
    read for them differ, each differs from the fetch of the stub, and a
    later read of the first name still yields the first function. *)
Theorem distinct_names_distinct_functions (h : Handle) (s : Stub) (m1 m2 : string) :
  accessed (proxy_of h) s →
  m1 ≠ m2 →
  h_props h !! m1 = None → m1 ≠ "fetch" → m1 ∉ Object_prototype_names →
  h_props h !! m2 = None → m2 ≠ "fetch" → m2 ∉ Object_prototype_names →
  let s1 := snd (proxy_get s m1) in
  let s2 := snd (proxy_get s1 m2) in
  fst (proxy_get s m1) ≠ fst (proxy_get s1 m2) ∧
  fst (proxy_get s m1) ≠ fst (proxy_get s "fetch") ∧
  fst (proxy_get s2 m1) = fst (proxy_get s m1).
Proof.
  intros Hreach Hdiff Hm1 Hf1 Hp1 Hm2 Hf2 Hp2 s1 s2.
  assert (accessed (proxy_of h) s1) as Hreach1 by (by apply accessed_get).
  destruct (read_unknown h s m1 Hreach Hm1 Hf1 Hp1) as (l1 & Hget1 & Hc1 & _).
  destruct (read_unknown h s1 m2 Hreach1 Hm2 Hf2 Hp2) as (l2 & Hget2 & Hc2 & _).
  fold s1 in Hget1, Hc1. fold s2 in Hget2, Hc2.
  assert (accessed (proxy_of h) s2) as Hreach2 by (by apply accessed_get).
  pose proof (accessed_inv h _ _ (proxy_of_inv h) Hreach2) as Hinv2.
  pose proof (proxy_get_keeps s1 m2 m1 l1 Hc1) as Hc1'. fold s2 in Hc1'.
  rewrite Hget1, Hget2. cbn [fst]. split; [|split].
  - intros [= ->]. apply Hdiff. by eapply cache_is_injective.
  - destruct (accessed_inv h _ _ (proxy_of_inv h) Hreach) as (_ & Hfetch & _).
    rewrite (proxy_get_cached _ _ _ Hfetch). cbn [fst]. intros [= ->].
    destruct Hinv2 as (_ & Hfetch2 & _).
    apply Hf1. eapply cache_is_injective; [apply (accessed_inv h _ _ (proxy_of_inv h) Hreach2)|done..].
  - by rewrite (proxy_get_cached _ _ _ Hc1').
Qed.

Import Sample Cases.

Lemma unserialisable_arguments_send_nothing_witness :
  fst (@call_method host counter "add" [Data (VNum 1); Data (VBigInt 2)] flaky)
  = Some (Throw (TypeError "Do not know how to serialize a BigInt"), flaky, []).
Proof.
  apply (@unserialisable_arguments_send_nothing host (stub_obj counter)).
  - apply accessed_refl.
  - vm_compute; reflexivity.
  - discriminate.
  - vm_compute. intros Hin. repeat (apply elem_of_cons in Hin as [Hin|Hin]; [discriminate|]).
    by apply elem_of_nil in Hin.
  - vm_compute; reflexivity.
Defined.

Lemma raw_fetch_is_sent_once_witness :
  @call_method host counter "fetch"
    [ARequest call_add; Data (VStr "init")] flaky
  = (Some (AResponse <$> fst (@fetch_call host (stub_obj counter)
                                [ARequest call_add; Data (VStr "init")] flaky),
           snd (@fetch_call host (stub_obj counter)
                  [ARequest call_add; Data (VStr "init")] flaky),
           [Forwarded [ARequest call_add; Data (VStr "init")]]), counter).
Proof.
  apply (@raw_fetch_is_sent_once host (stub_obj counter)). apply accessed_refl.
Defined.

Lemma prototype_names_shadow_the_handle_witness :
  proxy_get (proxy_of classy_handle) "constructor"
  = (Object_prototype !! "constructor", proxy_of classy_handle).
Proof.
  apply (prototype_names_shadow_the_handle classy_handle).
  - apply accessed_refl.
  - vm_compute. constructor.
Defined.

Lemma distinct_names_distinct_functions_witness :
  let s1 := snd (proxy_get counter "add") in
  let s2 := snd (proxy_get s1 "reset") in
  fst (proxy_get counter "add") ≠ fst (proxy_get s1 "reset") ∧
  fst (proxy_get counter "add") ≠ fst (proxy_get counter "fetch") ∧
  fst (proxy_get s2 "add") = fst (proxy_get counter "add").
Proof.
  apply (distinct_names_distinct_functions (stub_obj counter));
    first [ apply accessed_refl | discriminate | (vm_compute; reflexivity) | idtac ].
  all: vm_compute; intros Hin;
    repeat (apply elem_of_cons in Hin as [Hin|Hin]; [discriminate|]);
    by apply elem_of_nil in Hin.
Defined.

End ProxyMore.

(** ** More on the router and the codec *)

Module RouterMore.
Import Js Itty DurableStub DurableWS Notions Measures Retry Proxy ProxyMore Router.

Lemma prefix_append (p s : string) : String.prefix p (p +:+ s) = true.
Proof.
  induction p as [|c p IH]; [by destruct s|].
  change (String c p +:+ s) with (String c (p +:+ s)). cbn [String.prefix].
  by destruct (ascii_dec c c).
Qed.


Lemma error_throws (status : Z) (content : option string) :
  body_status status = false →
  ∃ name message,
    error status content = Throw (ErrorObject name message None) ∧
    name = (if ((200 <=? status) && (status <=? 599))%Z then "TypeError" else "RangeError").
Proof.
  unfold body_status. intros Hno.
  unfold error, json, JSON_stringify. cbn. unfold construct_Response.
  destruct ((200 <=? status) && (status <=? 599))%Z; cbn.
  - cbn in Hno. apply negb_false_iff in Hno. rewrite Hno. by eexists _, _.
  - by eexists _, _.
Qed.

(** X16. Encoding a return value never throws and always gives status 200;
    a structured value without a BigInt is sent as its JSON text. *)
Theorem createResponse_returns (data : val) :
  ∃ r, createResponse data = Return r ∧
       resp_status r = 200%Z ∧
       (structured data = true → has_bigint data = false →
        resp_body r = Some (json_text data)).
Proof.
  unfold createResponse, json, JSON_stringify.
  destruct data; cbn [structured]; try (eexists; split; [reflexivity|]; by split).
  - destruct (has_bigint (VArr items)) eqn:Hbig; cbn;
      eexists; (split; [reflexivity|]); split; try done.
  - destruct (has_bigint (VObj fields)) eqn:Hbig; cbn;
      eexists; (split; [reflexivity|]); split; try done.
Qed.


Section WithHost.
Context `{Host}.


(** An internal POST for a method the API object has. *)
Lemma routed (api : obj) (request : Request) (m : string) (f : fn) :
  String.prefix URL (req_url request) = true →
  req_method request = "POST" →
  route_prop (url_pathname (req_url request)) = Some m →
  obj_get api m = Some (PFun f) →
  fetch (createDurable api) request
  = try_catch
      (response ← (if (m =? "fetch")%string then call_fn f [ARequest request]
                   else args ← spread_args (withContent request);
                        call_fn f (List.map Data args));
       r ← match response with
           | AResponse r => mret r
           | Data v => createResponse v
           | ARequest _ => createResponse (VObj [])
           end;
       mret (AResponse r))
      (fun err =>
         status ← exn_status err;
         message ← exn_message err;
         AResponse <$> error (status_or status 500) message).
Proof.
  intros Hinternal Hpost Hroute Hf.
  cbn [createDurable fetch]. unfold durable_fetch, router_handle, handler.
  rewrite Hinternal, Hpost, Hroute, Hf.
  change ("POST" =? "POST")%string with true. cbn iota.
  destruct (if (m =? "fetch")%string then _ else _) as [response|e]; [|done].
  destruct response as [v|r0|r0];
    [destruct (createResponse v) eqn:Henc
    |destruct (createResponse (VObj [])) eqn:Henc
    |];
    cbn; rewrite ?Henc; reflexivity.
Qed.

(** What the catch handler makes of a thrown value. *)
Lemma caught (api : obj) (request : Request) (m : string) (err : exn) :
  String.prefix URL (req_url request) = true →
  req_method request = "POST" →
  route_prop (url_pathname (req_url request)) = Some m →
  handler api request m (withContent request) = Throw err →
  fetch (createDurable api) request
  = (status ← exn_status err;
     message ← exn_message err;
     AResponse <$> error (status_or status 500) message).
Proof.
  intros Hinternal Hpost Hroute Hthrow.
  cbn [createDurable fetch]. unfold durable_fetch, router_handle.
  rewrite Hinternal, Hpost, Hroute, Hthrow. reflexivity.
Qed.


(** The route handler, for a method other than fetch that throws. *)
Lemma handler_throws (api : obj) (request : Request) (m : string) (f : fn)
    (args : list val) (err : exn) :
  obj_get api m = Some (PFun f) →
  m ≠ "fetch" →
  withContent request = VArr args →
  call_fn f (List.map Data args) = Throw err →
  handler api request m (withContent request) = Throw err.
Proof.
  intros Hf Hne Hcontent Hthrow. unfold handler. rewrite Hf.
  destruct (String.eqb_spec m "fetch") as [->|_]; [done|].
  rewrite Hcontent. cbv beta iota delta [mbind completion_bind spread_args].
  by rewrite Hthrow.
Qed.


(** X24. What the catch handler throws rejects the fetch of the actor.  When
    a method throws null or undefined, reading [err.status] throws a
    TypeError; when it throws an error whose status is outside 200..599, the
    Response constructor throws a RangeError, and for the statuses 204, 205
    and 304, which allow no body, a TypeError. *)
Theorem unanswerable_error_rejects (api : obj) (request : Request) (m : string)
    (f : fn) (args : list val) (err : exn) :
  String.prefix URL (req_url request) = true →
  req_method request = "POST" →
  route_prop (url_pathname (req_url request)) = Some m →
  obj_get api m = Some (PFun f) →
  m ≠ "fetch" →
  withContent request = VArr args →
  call_fn f (List.map Data args) = Throw err →
  answerable err = false →
  ∃ name message,
    fetch (createDurable api) request = Throw (ErrorObject name message None) ∧
    name = match err with
           | ErrorObject _ _ status =>
               if ((200 <=? status_or status 500) && (status_or status 500 <=? 599))%Z
               then "TypeError" else "RangeError"
           | _ => "TypeError"
           end.
Proof.
  intros Hinternal Hpost Hroute Hf Hne Hcontent Hthrow Hcannot.
  rewrite (caught api request m err Hinternal Hpost Hroute
             (handler_throws api request m f args err Hf Hne Hcontent Hthrow)).
  destruct err as [name message status|text| |]; try discriminate Hcannot;
    cbn [exn_status exn_message answerable] in *.
  - cbv beta iota delta [mbind completion_bind].
    destruct (error_throws _ (Some message) Hcannot) as (n & msg & -> & ->).
    by eexists _, _.
  - by eexists _, _.
  - by eexists _, _.
Qed.

(** X10. A Response that a method returns is the answer, unchanged: it is
    not encoded again. *)
Theorem returned_response_passes_through (api : obj) (request : Request) (m : string)
    (f : fn) (args : list val) (r : Response) :
  String.prefix URL (req_url request) = true →
  req_method request = "POST" →
  route_prop (url_pathname (req_url request)) = Some m →
  obj_get api m = Some (PFun f) →
  m ≠ "fetch" →
  withContent request = VArr args →
  call_fn f (List.map Data args) = Return (AResponse r) →
  fetch (createDurable api) request = Return (AResponse r).
Proof.
  intros Hinternal Hpost Hroute Hf Hne Hcontent Hcall.
  rewrite (routed api request m f Hinternal Hpost Hroute Hf).
  destruct (String.eqb_spec m "fetch") as [->|_]; [done|].
  rewrite Hcontent. cbn [spread_args]. cbn. by rewrite Hcall.
Qed.

(** X11. The method name fetch is reserved: an internal POST to it calls the
    fetch of the API object with the request itself, whatever its body, and
    even when it has none. *)
Theorem fetch_receives_the_request (api : obj) (request : Request) (f : fn)
    (r : Response) :
  String.prefix URL (req_url request) = true →
  req_method request = "POST" →
  route_prop (url_pathname (req_url request)) = Some "fetch" →
  obj_get api "fetch" = Some (PFun f) →
  call_fn f [ARequest request] = Return (AResponse r) →
  fetch (createDurable api) request = Return (AResponse r).
Proof.
  intros Hinternal Hpost Hroute Hf Hcall.
  rewrite (routed api request "fetch" f Hinternal Hpost Hroute Hf).
  change ("fetch" =? "fetch")%string with true. cbn iota. by rewrite Hcall.
Qed.

(** X12. An internal POST to a method other than fetch whose content is
    neither an array nor a string, a request without a JSON body among
    them, is answered 500. *)
Theorem content_that_cannot_be_spread_is_500 (api : obj) (request : Request)
    (m : string) (f : fn) :
  String.prefix URL (req_url request) = true →
  req_method request = "POST" →
  route_prop (url_pathname (req_url request)) = Some m →
  obj_get api m = Some (PFun f) →
  m ≠ "fetch" →
  iterable (withContent request) = false →
  ∃ r, fetch (createDurable api) request = Return (AResponse r) ∧
       resp_status r = 500%Z.
Proof.
  intros Hinternal Hpost Hroute Hf Hne Hcontent.
  rewrite (routed api request m f Hinternal Hpost Hroute Hf).
  destruct (String.eqb_spec m "fetch") as [->|_]; [done|].
  destruct (withContent request); try discriminate Hcontent;
    cbn; eexists; (split; [reflexivity|]); reflexivity.
Qed.

Lemma arguments_round_trip_aux (m : string) (args : list val) (request : Request) :
  createRequest m (VArr args) = Return request →
  JSON_parse (json_text (VArr args)) = Return (VArr args) →
  withContent request = VArr args ∧
  req_method request = "POST" ∧
  String.prefix URL (req_url request) = true.
Proof.
  unfold createRequest, JSON_stringify.
  destruct (has_bigint (VArr args)); [discriminate|].
  cbn. intros [= <-] Hparse. split; [|split; [done|apply prefix_append]].
  unfold withContent. cbn. by rewrite Hparse.
Qed.

(** X13. The arguments of a call survive the wire: when JSON.parse reads
    back what JSON.stringify wrote for the argument array, the content the
    router finds in the request of [createRequest] is that array, in a POST
    to the internal URL. *)
Theorem arguments_round_trip (m : string) (args : list val) (request : Request) :
  createRequest m (VArr args) = Return request →
  JSON_parse (json_text (VArr args)) = Return (VArr args) →
  withContent request = VArr args ∧
  req_method request = "POST" ∧
  String.prefix URL (req_url request) = true.
Proof. apply arguments_round_trip_aux. Qed.

(** A call that reaches the actor over the wire. *)
Lemma remote_call (h : Handle) (s : Stub) (api : obj) (m : string) (f : fn)
    (args : list val) (answer : any) (r : Response) (w w1 : World) :
  accessed (proxy_of h) s →
  h_props h !! m = None → m ≠ "fetch" → m ∉ Object_prototype_names →
  m ≠ "" → includes "/" m = false →
  url_pathname (URL +:+ m) = "/" +:+ m →
  has_bigint (VArr args) = false →
  JSON_parse (json_text (VArr args)) = Return (VArr args) →
  obj_get api m = Some (PFun f) →
  call_fn f (List.map Data args) = Return answer →
  match answer with
  | AResponse r' => mret r'
  | Data v => createResponse v
  | ARequest _ => createResponse (VObj [])
  end = Return r →
  (∀ request r',
     fetch (createDurable api) request = Return (AResponse r') →
     handle_fetch h request w = (Return r', w1)) →
  ∃ request,
    createRequest m (VArr args) = Return request ∧
    fst (call_method s m (List.map Data args) w)
    = Some (transformResponse r, w1, [Sent request]).
Proof.
  intros Hreach Hm Hne Hproto Hnonempty Hplain Hpath Hbig Hparse Hf Hcall Henc Hwire.
  assert (array_of (List.map Data args) = VArr args) as Harr.
  { unfold array_of. f_equal. rewrite List.map_map. apply List.map_id. }
  destruct (createRequest m (VArr args)) as [request|e] eqn:Hreq.
  2: { unfold createRequest, JSON_stringify in Hreq. by rewrite Hbig in Hreq. }
  destruct (arguments_round_trip_aux m args request Hreq Hparse)
    as (Hcontent & Hpost & Hinternal).
  assert (req_url request = URL +:+ m) as Hurl.
  { unfold createRequest, JSON_stringify in Hreq. rewrite Hbig in Hreq.
    by injection Hreq as <-. }
  assert (fetch (createDurable api) request = Return (AResponse r)) as Hanswer.
  { rewrite (routed api request m f Hinternal Hpost); [|by rewrite Hurl, Hpath, route_prop_plain|done].
    destruct (String.eqb_spec m "fetch") as [->|_]; [done|].
    rewrite Hcontent.
    cbv beta iota delta [mbind completion_bind spread_args].
    rewrite Hcall, Henc. reflexivity. }
  exists request. split; [done|].
  rewrite (call_unknown h s m _ w Hreach Hm Hne Hproto). cbn [fst]. rewrite Harr.
  by rewrite (stubFetch_final _ _ _ _ _ _ _ _ Hreq (Hwire _ _ Hanswer) I).
Qed.

(** X14. A call through the stub that reaches the actor returns what the
    method returned.  If the transport hands requests to the fetch of the
    object made by [createDurable] and brings its responses back, and
    JSON.parse reads back what JSON.stringify wrote for the arguments and
    for the result, then [stub.m(...args)] calls the method [m] of the API
    object with these arguments and resolves with its result, a structured
    value, after one request. *)
Theorem remote_call_returns_the_result (h : Handle) (s : Stub) (api : obj)
    (m : string) (f : fn) (args : list val) (v : val) (w w1 : World) :
  accessed (proxy_of h) s →
  h_props h !! m = None → m ≠ "fetch" → m ∉ Object_prototype_names →
  m ≠ "" → includes "/" m = false →
  url_pathname (URL +:+ m) = "/" +:+ m →
  has_bigint (VArr args) = false →
  JSON_parse (json_text (VArr args)) = Return (VArr args) →
  obj_get api m = Some (PFun f) →
  call_fn f (List.map Data args) = Return (Data v) →
  structured v = true →
  has_bigint v = false →
  JSON_parse (json_text v) = Return v →
  (∀ request r,
     fetch (createDurable api) request = Return (AResponse r) →
     handle_fetch h request w = (Return r, w1)) →
  ∃ request,
    createRequest m (VArr args) = Return request ∧
    fst (call_method s m (List.map Data args) w)
    = Some (Return (Data v), w1, [Sent request]).
Proof.
  intros Hreach Hm Hne Hproto Hnonempty Hplain Hpath Hbig Hparse Hf Hcall
    Hstructured Hvbig Hvparse Hwire.
  assert (∃ r, createResponse v = Return r ∧ resp_unreadable r = None ∧
               resp_body r = Some (json_text v)) as (r & Henc & Hreadable & Hbody).
  { unfold createResponse, json, JSON_stringify.
    destruct v; try discriminate Hstructured; rewrite ?Hvbig; cbn; eauto. }
  destruct (remote_call h s api m f args (Data v) r w w1) as (request & Hreq & Hrun);
    try done.
  exists request. split; [done|]. rewrite Hrun.
  unfold transformResponse, response_text. rewrite Hreadable, Hbody. cbn.
  by rewrite Hvparse.
Qed.

(** X15. A method that returns nothing makes the call resolve with the empty
    string.  The response for undefined has no body, its text is empty, and
    JSON.parse rejects the empty text, so the decoder falls back to the
    text. *)
Theorem undefined_result_becomes_empty_string (h : Handle) (s : Stub) (api : obj)
    (m : string) (f : fn) (args : list val) (e : exn) (w w1 : World) :
  accessed (proxy_of h) s →
  h_props h !! m = None → m ≠ "fetch" → m ∉ Object_prototype_names →
  m ≠ "" → includes "/" m = false →
  url_pathname (URL +:+ m) = "/" +:+ m →
  has_bigint (VArr args) = false →
  JSON_parse (json_text (VArr args)) = Return (VArr args) →
  obj_get api m = Some (PFun f) →
  call_fn f (List.map Data args) = Return (Data VUndefined) →
  JSON_parse "" = Throw e →
  (∀ request r,
     fetch (createDurable api) request = Return (AResponse r) →
     handle_fetch h request w = (Return r, w1)) →
  ∃ request,
    createRequest m (VArr args) = Return request ∧
    fst (call_method s m (List.map Data args) w)
    = Some (Return (Data (VStr "")), w1, [Sent request]).
Proof.
  intros Hreach Hm Hne Hproto Hnonempty Hplain Hpath Hbig Hparse Hf Hcall
    Hempty Hwire.
  destruct (remote_call h s api m f args (Data VUndefined) (new_Response None 200) w w1)
    as (request & Hreq & Hrun); try done.
  exists request. split; [done|]. rewrite Hrun.
  unfold transformResponse, response_text. cbn. by rewrite Hempty.
Qed.


End WithHost.

Import Sample Cases.



Lemma unanswerable_error_rejects_witness :
  (∃ name message,
     fetch (@createDurable actor_side echo_api) (post "fail" (Some "[]"))
     = Throw (ErrorObject name message None) ∧ name = "TypeError") ∧
  (∃ name message,
     fetch (@createDurable actor_side echo_api) (post "odd" (Some "[]"))
     = Throw (ErrorObject name message None) ∧ name = "RangeError").
Proof.
  split.
  - apply (@unanswerable_error_rejects actor_side echo_api _ "fail" (Defined 4) []
             ThrownNull);
      first [ discriminate | vm_compute; reflexivity ].
  - apply (@unanswerable_error_rejects actor_side echo_api _ "odd" (Defined 5) []
             (StatusError 42 "odd status"));
      first [ discriminate | vm_compute; reflexivity ].
Defined.

Lemma returned_response_passes_through_witness :
  fetch (@createDurable actor_side echo_api) (post "render" (Some "[]"))
  = Return (AResponse page).
Proof.
  apply (@returned_response_passes_through actor_side echo_api _ "render" (Defined 3) []);
    first [ discriminate | vm_compute; reflexivity ].
Defined.

Lemma fetch_receives_the_request_witness :
  fetch (@createDurable actor_side echo_api) (post "fetch" None)
  = Return (AResponse page).
Proof.
  apply (@fetch_receives_the_request actor_side echo_api _ (Defined 3));
    vm_compute; reflexivity.
Defined.

Lemma content_that_cannot_be_spread_is_500_witness :
  ∃ r, fetch (@createDurable actor_side echo_api) (post "echo" None)
       = Return (AResponse r) ∧
       resp_status r = 500%Z.
Proof.
  apply (@content_that_cannot_be_spread_is_500 actor_side echo_api _ "echo" (Defined 0));
    first [ discriminate | vm_compute; reflexivity ].
Defined.

Lemma arguments_round_trip_witness :
  @withContent actor_side (post "echo" (Some "[]")) = VArr [] ∧
  req_method (post "echo" (Some "[]")) = "POST" ∧
  String.prefix URL (req_url (post "echo" (Some "[]"))) = true.
Proof.
  apply (@arguments_round_trip actor_side "echo" []); vm_compute; reflexivity.
Defined.

Lemma loopback_wire (h : Handle) (request : Request) (r : Response) :
  fetch (@createDurable loopback echo_api) request = Return (AResponse r) →
  @handle_fetch loopback h request tt = (Return r, tt).
Proof.
  intros Hr. unfold handle_fetch. cbn [fetch_call loopback]. unfold deliver.
  change (@createDurable actor_side echo_api) with (@createDurable loopback echo_api).
  by rewrite Hr.
Defined.

Lemma not_a_prototype_name (m : string) :
  bool_decide (m ∈ Object_prototype_names) = false → m ∉ Object_prototype_names.
Proof. apply bool_decide_eq_false. Defined.

Lemma remote_call_returns_the_result_witness :
  ∃ request,
    createRequest "echo" (VArr []) = Return request ∧
    fst (@call_method loopback counter "echo" (List.map Data []) tt)
    = Some (Return (Data (VArr [])), tt, [Sent request]).
Proof.
  apply (@remote_call_returns_the_result loopback (stub_obj counter) counter echo_api
           "echo" (Defined 0) [] (VArr []) tt tt);
    first [ apply accessed_refl
          | discriminate
          | apply not_a_prototype_name; vm_compute; reflexivity
          | apply loopback_wire
          | vm_compute; reflexivity ].
Defined.

Lemma undefined_result_becomes_empty_string_witness :
  ∃ request,
    createRequest "touch" (VArr []) = Return request ∧
    fst (@call_method loopback counter "touch" (List.map Data []) tt)
    = Some (Return (Data (VStr "")), tt, [Sent request]).
Proof.
  apply (@undefined_result_becomes_empty_string loopback (stub_obj counter) counter
           echo_api "touch" (Defined 1) []
           (ErrorObject "SyntaxError" "Unexpected token" None) tt tt);
    first [ apply accessed_refl
          | discriminate
          | apply not_a_prototype_name; vm_compute; reflexivity
          | apply loopback_wire
          | vm_compute; reflexivity ].
Defined.



End RouterMore.

(** ** Extending the namespaces of an environment *)

Module Sweep.
Import Js Environment Measures.

Lemma extend_object_idempotent (o : env_object) :
  extend_object (extend_object o) = extend_object o.
Proof.
  unfold extend_object. destruct (o_get o) as [slot|] eqn:Hget; [|by rewrite Hget].
  destruct (slot_extended slot) eqn:Hext; cbn; [by rewrite Hget, Hext|done].
Qed.

Lemma extend_object_idFromName (o : env_object) :
  o_idFromName (extend_object o) = o_idFromName o.
Proof.
  unfold extend_object. destruct (o_get o) as [slot|]; [|done].
  by destruct (slot_extended slot).
Qed.

(** The heap after [extendNamespace] has returned. *)
Lemma extendNamespace_lookup (loc l : nat) (heap heap1 : list env_object) (u : unit) :
  extendNamespace loc heap = (Return u, heap1) →
  heap1 !! l = if decide (l = loc) then extend_object <$> heap !! l else heap !! l.
Proof.
  unfold extendNamespace.
  destruct (heap !! loc) as [o|] eqn:Hloc.
  - destruct (o_get o) as [slot|] eqn:Hget; [|discriminate].
    destruct (slot_extended slot) eqn:Hext; cbn; intros [= _ <-].
    + destruct (decide (l = loc)) as [->|_]; [|done].
      rewrite Hloc. cbn. unfold extend_object. by rewrite Hget, Hext.
    + destruct (decide (l = loc)) as [->|Hne].
      * rewrite list_lookup_insert_eq by (by eapply lookup_lt_Some).
        rewrite Hloc. cbn. unfold extend_object. by rewrite Hget, Hext.
      * by rewrite list_lookup_insert_ne.
  - intros [= _ <-]. destruct (decide (l = loc)) as [->|_]; [|done].
    by rewrite Hloc.
Qed.

Lemma extend_object_settled (o : env_object) (slot : get_slot) :
  o_get o = Some slot → slot_extended slot = true → extend_object o = o.
Proof. intros Hget Hext. unfold extend_object. by rewrite Hget, Hext. Qed.

Lemma extendNamespace_settles (loc : nat) (heap heap1 : list env_object) (u : unit) :
  extendNamespace loc heap = (Return u, heap1) → settled heap1 loc.
Proof.
  intros Hrun o Ho _. rewrite (extendNamespace_lookup _ loc _ _ _ Hrun) in Ho.
  rewrite decide_True in Ho by done.
  unfold extendNamespace in Hrun.
  destruct (heap !! loc) as [o0|]; [|done].
  cbn in Ho. injection Ho as <-.
  destruct (o_get o0) as [slot|] eqn:Hget; [|discriminate].
  unfold extend_object. rewrite Hget.
  destruct (slot_extended slot) eqn:Hext; cbn; eauto.
Qed.

Lemma extendNamespace_keeps_settled (loc l : nat) (heap heap1 : list env_object) (u : unit) :
  extendNamespace loc heap = (Return u, heap1) → settled heap l → settled heap1 l.
Proof.
  intros Hrun Hl.
  destruct (decide (l = loc)) as [->|Hne]; [by eapply extendNamespace_settles|].
  intros o Ho. rewrite (extendNamespace_lookup _ l _ _ _ Hrun) in Ho.
  rewrite decide_False in Ho by done. by apply Hl.
Qed.

Lemma extend_values_keeps_settled (values : list env_value) (heap heap1 : list env_object)
    (l : nat) (u : unit) :
  extend_values values heap = (Return u, heap1) → settled heap l → settled heap1 l.
Proof.
  revert heap. induction values as [|value rest IH]; intros heap; cbn [extend_values].
  - by intros [= _ <-].
  - destruct (namespace_like heap value); [|apply IH].
    destruct value as [v|loc]; [apply IH|].
    destruct (extendNamespace loc heap) as [[u'|e] heap'] eqn:Hstep; [|discriminate].
    intros Hrest Hl. eapply IH; [done|]. by eapply extendNamespace_keeps_settled.
Qed.

Lemma extend_values_settles (values : list env_value) (heap heap1 : list env_object)
    (u : unit) :
  extend_values values heap = (Return u, heap1) →
  ∀ loc, loc ∈ referenced values → settled heap1 loc.
Proof.
  revert heap. induction values as [|value rest IH]; intros heap; cbn [extend_values].
  - intros _ loc Hin. by apply elem_of_nil in Hin.
  - destruct value as [v|l0].
    { destruct (namespace_like heap (Plain v)); intros Hrun loc Hin; by eapply IH. }
    unfold referenced. cbn [omap list_omap]. fold (referenced rest).
    destruct (namespace_like heap (Reference l0)) eqn:Hlike.
    + destruct (extendNamespace l0 heap) as [[u'|e] heap'] eqn:Hstep; [|discriminate].
      intros Hrun loc [->|Hin]%elem_of_cons; [|by eapply IH].
      eapply extend_values_keeps_settled; [done|]. by eapply extendNamespace_settles.
    + intros Hrun loc [->|Hin]%elem_of_cons; [|by eapply IH].
      assert (settled heap l0) as Hl0.
      { intros o Ho Hfun. cbn in Hlike. rewrite Ho in Hlike. congruence. }
      by eapply extend_values_keeps_settled.
Qed.

Lemma extend_values_noop (values : list env_value) (heap : list env_object) :
  (∀ loc, loc ∈ referenced values → settled heap loc) →
  extend_values values heap = (Return tt, heap).
Proof.
  induction values as [|value rest IH]; intros Hall; [done|]. cbn [extend_values].
  destruct value as [v|l0].
  { destruct (namespace_like heap (Plain v)); apply IH; intros loc Hin; by apply Hall. }
  assert (∀ loc, loc ∈ referenced rest → settled heap loc) as Hrest.
  { intros loc Hin. apply Hall. unfold referenced. cbn [omap list_omap].
    by apply elem_of_cons; right. }
  destruct (namespace_like heap (Reference l0)) eqn:Hlike; [|by apply IH].
  cbn in Hlike. destruct (heap !! l0) as [o|] eqn:Ho; [|discriminate].
  assert (l0 ∈ referenced (Reference l0 :: rest)) as Hin.
  { unfold referenced. cbn [omap list_omap]. apply elem_of_cons. by left. }
  destruct (Hall l0 Hin o Ho Hlike) as (slot & Hget & Hext).
  unfold extendNamespace. rewrite Ho, Hget, Hext. cbn. by apply IH.
Qed.

Lemma swept_cons_other (value : env_value) (rest : list env_value) (loc : nat)
    (o : env_object) :
  (∀ l0, value = Reference l0 → l0 ≠ loc) →
  swept (value :: rest) loc o = swept rest loc o.
Proof.
  intros Hother. unfold swept, referenced. cbn [omap list_omap].
  destruct value as [v|l0]; [done|]. f_equal.
  apply bool_decide_ext. rewrite elem_of_cons.
  specialize (Hother l0 eq_refl). split; [|by right].
  intros [->|Hin]; [done|exact Hin].
Qed.

Lemma extend_values_lookup (values : list env_value) (heap heap1 : list env_object)
    (u : unit) (loc : nat) :
  extend_values values heap = (Return u, heap1) →
  heap1 !! loc
  = (fun o => if swept values loc o then extend_object o else o) <$> heap !! loc.
Proof.
  revert heap. induction values as [|value rest IH]; intros heap; cbn [extend_values].
  - intros [= _ <-]. by destruct (heap !! loc).
  - destruct (namespace_like heap value) eqn:Hlike.
    + destruct value as [v|l0]; [discriminate|].
      destruct (extendNamespace l0 heap) as [[u'|e] heap'] eqn:Hstep; [|discriminate].
      intros Hrun. rewrite (IH _ Hrun), (extendNamespace_lookup _ loc _ _ _ Hstep).
      destruct (decide (loc = l0)) as [->|Hne].
      * cbn in Hlike. destruct (heap !! l0) as [o|]; [|done]. cbn. f_equal.
        unfold swept at 2, referenced. cbn [omap list_omap].
        rewrite bool_decide_eq_true_2 by (apply elem_of_cons; by left).
        rewrite Hlike. cbn.
        destruct (swept rest l0 (extend_object o)); [|done].
        apply extend_object_idempotent.
      * destruct (heap !! loc) as [o|]; [|done]. cbn. f_equal.
        rewrite (swept_cons_other (Reference l0)); [done|]. by intros ? [= <-].
    + intros Hrun. rewrite (IH _ Hrun).
      destruct (heap !! loc) as [o|] eqn:Ho; [|done]. cbn. f_equal.
      destruct value as [v|l0]; [by rewrite (swept_cons_other (Plain v))|].
      destruct (decide (l0 = loc)) as [->|Hne].
      * cbn in Hlike. rewrite Ho in Hlike.
        unfold swept. rewrite Hlike. by rewrite !andb_false_r.
      * rewrite (swept_cons_other (Reference l0)); [done|]. by intros ? [= <-].
Qed.

(** X17. A sweep that returns extends each namespace once and touches
    nothing else.  An object is changed only if a value of the environment
    refers to it and its idFromName is a function; its get is then the
    resolver around the function that was there, marked as extended, and
    only if it was not marked already.  This holds however many properties
    of the environment refer to the object. *)
Theorem extendEnv_extends_each_namespace_once (env : list (string * env_value))
    (heap heap1 : list env_object) (loc : nat) :
  extendEnv env heap = (Return tt, heap1) →
  heap1 !! loc
  = (fun o => if swept (List.map snd env) loc o then extend_object o else o)
      <$> heap !! loc.
Proof. apply extend_values_lookup. Qed.

(** X18. Extension is idempotent: after a sweep that returned, a second
    sweep of the same environment returns and leaves the heap as it is, so
    no resolver is ever wrapped in another. *)
Theorem extendEnv_is_idempotent (env : list (string * env_value))
    (heap heap1 : list env_object) :
  extendEnv env heap = (Return tt, heap1) →
  extendEnv env heap1 = (Return tt, heap1).
Proof.
  intros Hrun. apply extend_values_noop. by eapply extend_values_settles.
Qed.

(** X19. An object that looks like a namespace and has no get makes the
    sweep throw: reading the extended mark of an undefined get is a
    TypeError, and nothing catches it. *)
Theorem extendEnv_throws_without_get (env : list (string * env_value))
    (heap : list env_object) (loc : nat) (o : env_object) :
  loc ∈ referenced (List.map snd env) →
  heap !! loc = Some o →
  is_function (o_idFromName o) = true →
  o_get o = None →
  ∃ e, fst (extendEnv env heap) = Throw e.
Proof.
  unfold extendEnv. generalize (List.map snd env) as values. clear env.
  intros values Hin Ho Hfun Hget. revert heap Ho.
  induction values as [|value rest IH]; intros heap Ho.
  { by apply elem_of_nil in Hin. }
  cbn [extend_values].
  destruct value as [v|l0].
  { destruct (namespace_like heap (Plain v)); by apply IH. }
  unfold referenced in Hin. cbn [omap list_omap] in Hin. fold (referenced rest) in Hin.
  destruct (decide (l0 = loc)) as [->|Hne].
  - cbn [namespace_like]. rewrite Ho, Hfun.
    unfold extendNamespace. rewrite Ho, Hget. cbn. eauto.
  - apply elem_of_cons in Hin as [->|Hin]; [done|].
    destruct (namespace_like heap (Reference l0)); [|by apply IH].
    destruct (extendNamespace l0 heap) as [[u|e] heap'] eqn:Hstep; [|cbn; eauto].
    apply IH; [done|].
    rewrite (extendNamespace_lookup _ loc _ _ _ Hstep).
    by rewrite decide_False by done.
Qed.

Import Cases.

Lemma extendEnv_extends_each_namespace_once_witness :
  let extended :=
    [ {| o_idFromName := Some (PFun (Builtin "idFromName"));
         o_get := Some {| slot_fn := Resolver RuntimeGet; slot_extended := true |} |};
      {| o_idFromName := None;
         o_get := Some {| slot_fn := RuntimeGet; slot_extended := false |} |} ] in
  extended !! 0%nat
  = (fun o => if swept (List.map snd bindings) 0 o then extend_object o else o)
      <$> fresh_heap !! 0%nat.
Proof.
  apply (extendEnv_extends_each_namespace_once bindings fresh_heap).
  vm_compute. reflexivity.
Defined.

Lemma extendEnv_is_idempotent_witness :
  let extended :=
    [ {| o_idFromName := Some (PFun (Builtin "idFromName"));
         o_get := Some {| slot_fn := Resolver RuntimeGet; slot_extended := true |} |};
      {| o_idFromName := None;
         o_get := Some {| slot_fn := RuntimeGet; slot_extended := false |} |} ] in
  extendEnv bindings extended = (Return tt, extended).
Proof.
  apply (extendEnv_is_idempotent bindings fresh_heap).
  vm_compute. reflexivity.
Defined.

Lemma extendEnv_throws_without_get_witness :
  ∃ e, fst (extendEnv bindings broken_heap) = Throw e.
Proof.
  apply (extendEnv_throws_without_get bindings broken_heap 0
           {| o_idFromName := Some (PFun (Builtin "idFromName")); o_get := None |}).
  - vm_compute. constructor.
  - reflexivity.
  - reflexivity.
  - reflexivity.
Defined.

End Sweep.

(** ** More on the broadcast layer *)

Module BroadcastMore.
Import Js DurableWS Notions Measures Broadcast.

Lemma length_ws_send (msg : message) (state : DurableObjectState) (a : nat) :
  length (sockets (snd (ws_send msg state a))) = length (sockets state).
Proof.
  unfold ws_send. destruct (sockets state !! a) as [wa|]; [|done].
  destruct (ws_closes wa =? 0)%nat; [|done]. apply length_alter.
Qed.

Lemma length_send_each (msg : message) (l : list nat) (state : DurableObjectState) :
  length (sockets (snd (forEach_send msg l state))) = length (sockets state).
Proof.
  revert state. induction l as [|a l IH]; intros state; [done|].
  cbn [forEach_send]. pose proof (length_ws_send msg state a) as Hlen.
  destruct (ws_send msg state a) as [[[]|e] state1]; cbn [snd] in *; [|done].
  by rewrite IH.
Qed.

(** Whether it throws or not, a broadcast only appends to outboxes. *)
Lemma send_each_appends (msg : message) (l : list nat) (state : DurableObjectState)
    (w : nat) :
  ∃ k, sockets (snd (forEach_send msg l state)) !! w
       = received k msg <$> sockets state !! w.
Proof.
  revert state. induction l as [|a l IH]; intros state.
  - exists 0%nat. simpl. destruct (sockets state !! w); [|done].
    simpl. by rewrite received_0.
  - cbn [forEach_send]. unfold ws_send.
    destruct (sockets state !! a) as [wa|] eqn:Ha; [|apply IH].
    destruct (ws_closes wa =? 0)%nat.
    + destruct (IH (ws_push msg state a)) as [k Hk]. rewrite Hk, ws_push_lookup.
      destruct (Nat.eq_dec a w) as [->|Hne].
      * exists (S k). destruct (sockets state !! w); [|done].
        simpl. f_equal. apply received_S.
      * exists k. by destruct (sockets state !! w).
    + exists 0%nat. simpl. destruct (sockets state !! w); [|done].
      simpl. by rewrite received_0.
Qed.

Lemma reported_received (tag : option string) (k : nat) (msg : message) (ws : WebSocket) :
  reported tag (received k msg ws) = reported tag ws.
Proof. reflexivity. Qed.

(** Sending changes nothing in what the runtime reports. *)
Lemma getWebSockets_sendTo (tags : selector) (msg : message) (state : DurableObjectState)
    (tag : option string) :
  getWebSockets (snd (sendTo tags msg state)) tag = getWebSockets state tag.
Proof.
  unfold getWebSockets, sendTo. rewrite length_send_each.
  apply List.filter_ext. intros w.
  destruct (send_each_appends msg (resolve state tags) state w) as [k ->].
  by destruct (sockets state !! w).
Qed.

Lemma resolve_sendTo (tags selected : selector) (msg : message)
    (state : DurableObjectState) :
  resolve (snd (sendTo tags msg state)) selected = resolve state selected.
Proof.
  destruct selected as [|ts]; cbn [resolve]; [apply getWebSockets_sendTo|].
  apply flat_map_ext. intros t. apply getWebSockets_sendTo.
Qed.

(** Sending calls [close] on no socket. *)
Lemma all_open_sendTo (tags : selector) (msg : message) (state : DurableObjectState)
    (l : list nat) :
  all_open state l → all_open (snd (sendTo tags msg state)) l.
Proof.
  intros Hopen w ws Hin. unfold sendTo.
  destruct (send_each_appends msg (resolve state tags) state w) as [k ->].
  destruct (sockets state !! w) as [ws0|] eqn:Hw; [|done].
  simpl. intros [= <-]. apply (Hopen w ws0 Hin Hw).
Qed.

(** A selector resolves to connections that the runtime reports. *)
Lemma In_resolve (state : DurableObjectState) (tags : selector) (w : nat) :
  In w (resolve state tags) → In w (getWebSockets state None).
Proof.
  destruct tags as [|ts]; cbn [resolve]; [done|].
  intros (t & _ & Hin)%in_flat_map.
  apply In_getWebSockets in Hin as (ws & Hws & Hrep).
  apply In_getWebSockets. exists ws. split; [done|].
  unfold reported in *. by destruct (ws_tags ws).
Qed.

(** X20. Broadcasts compose in order, as long as [close] has been called on
    no connection they resolve to, so that no [send] throws.  A broadcast
    does not change which connections a selector resolves to, so both
    broadcasts return, and after them a connection holds, behind what it
    held, the first message as often as the first selector resolves to it
    and then the second message as often as the second does, both counted in
    the state before the first. *)
Theorem broadcasts_compose (state : DurableObjectState) (first second : selector)
    (m1 m2 : message) (w : nat) (ws : WebSocket) :
  sockets state !! w = Some ws →
  all_open state (resolve state first) →
  all_open state (resolve state second) →
  resolve (snd (sendTo first m1 state)) second = resolve state second ∧
  fst (sendTo first m1 state) = Return tt ∧
  fst (sendTo second m2 (snd (sendTo first m1 state))) = Return tt ∧
  ws_outbox <$> sockets (snd (sendTo second m2 (snd (sendTo first m1 state)))) !! w
  = Some (ws_outbox ws ++ replicate (visits state first w) m1
                       ++ replicate (visits state second w) m2).
Proof.
  intros Hws Hfirst Hsecond.
  destruct (send_each m1 _ _ Hfirst) as [Hret1 Hlook1].
  assert (all_open (snd (sendTo first m1 state))
            (resolve (snd (sendTo first m1 state)) second)) as Hsecond'.
  { rewrite resolve_sendTo. by apply all_open_sendTo. }
  destruct (send_each m2 _ _ Hsecond') as [Hret2 Hlook2].
  split; [apply resolve_sendTo|]. split; [exact Hret1|]. split; [exact Hret2|].
  unfold sendTo at 1. rewrite Hlook2, resolve_sendTo.
  unfold sendTo. rewrite Hlook1, Hws. cbn. unfold visits.
  by rewrite <- app_assoc.
Qed.

(** X21. A connection that [upgrade] has accepted under its tags is reached
    by the next broadcast, as long as [close] has been called on none of the
    accepted connections: a broadcast to one of the tags and a broadcast to
    all return, [send] is called once on the server end of the connection
    by each, and never on the client end, which goes to the caller in the
    response. *)
Theorem accepted_connection_is_reached (getTags : Request → option (list string))
    (request : Request) (state : DurableObjectState) (tags : list string)
    (t : string) (msg : message) :
  headers_get (req_headers request) "Upgrade" = Some "websocket" →
  getTags request = Some tags →
  t ∈ tags →
  all_open state (getWebSockets state None) →
  let state' := snd (upgrade getTags request state) in
  let client := length (sockets state) in
  let server := S client in
  fst (sendTo (Tags [t]) msg state') = Return tt ∧
  fst (sendTo All msg state') = Return tt ∧
  ws_outbox <$> sockets (snd (sendTo (Tags [t]) msg state')) !! server = Some [msg] ∧
  ws_outbox <$> sockets (snd (sendTo All msg state')) !! server = Some [msg] ∧
  ws_outbox <$> sockets (snd (sendTo (Tags [t]) msg state')) !! client = Some [] ∧
  ws_outbox <$> sockets (snd (sendTo All msg state')) !! client = Some [].
Proof.
  intros Hheader Htags Ht Hopen state' client server.
  assert (sockets state'
          = sockets state ++
            [fresh_socket;
             {| ws_tags := Some tags; ws_attachment := Some tags;
                ws_outbox := []; ws_closes := 0 |}]) as Hsockets.
  { unfold state', upgrade. rewrite Hheader, Htags.
    rewrite bool_decide_eq_true_2 by done.
    cbn [no_header String.eqb Ascii.eqb Bool.eqb orb negb WebSocketPair snd].
    unfold serializeAttachment, acceptWebSocket. cbn [sockets].
    apply upgrade_state. }
  assert (sockets state' !! server
          = Some {| ws_tags := Some tags; ws_attachment := Some tags;
                    ws_outbox := []; ws_closes := 0 |}) as Hserver.
  { rewrite Hsockets, lookup_app_r by (unfold server, client; lia).
    unfold server. fold client.
    by replace (S client - client)%nat with 1%nat by lia. }
  assert (sockets state' !! client = Some fresh_socket) as Hclient.
  { rewrite Hsockets, lookup_app_r by (unfold client; lia).
    fold client. by rewrite Nat.sub_diag. }
  assert (∀ selected, all_open state' (resolve state' selected)) as Hopen'.
  { intros selected v vs Hin%In_resolve Hv.
    apply In_getWebSockets in Hin as (vs' & Hv' & Hrep).
    rewrite Hv in Hv'. injection Hv' as <-.
    destruct (decide (v < client)%nat) as [Hold|Hnew].
    - rewrite Hsockets, lookup_app_l in Hv by done.
      apply (Hopen v vs); [|done]. apply In_getWebSockets. by exists vs.
    - rewrite Hsockets, lookup_app_r in Hv by (fold client; lia). fold client in Hv.
      destruct (v - client)%nat as [|[|n]]; simpl in Hv; [| |done];
        by injection Hv as <-. }
  destruct (send_each msg _ _ (Hopen' (Tags [t]))) as [Hret_t Hlook_t].
  destruct (send_each msg _ _ (Hopen' All)) as [Hret_all Hlook_all].
  split; [exact Hret_t|]. split; [exact Hret_all|].
  unfold sendTo. rewrite !Hlook_t, !Hlook_all, Hserver, Hclient. cbn [resolve flat_map].
  rewrite app_nil_r.
  rewrite !(count_getWebSockets _ _ _ _ Hserver), !(count_getWebSockets _ _ _ _ Hclient).
  unfold reported. cbn.
  by rewrite bool_decide_eq_true_2.
Qed.

Lemma length_close_each (l : list nat) (state : DurableObjectState) :
  length (sockets (fold_left ws_close l state)) = length (sockets state).
Proof.
  revert state. induction l as [|a l IH]; intros state; [done|].
  cbn [fold_left]. rewrite IH. unfold ws_close. cbn [sockets]. apply length_alter.
Qed.

(** Closing changes nothing in what the runtime reports. *)
Lemma resolve_close (tags selected : selector) (state : DurableObjectState) :
  resolve (close tags state) selected = resolve state selected.
Proof.
  assert (∀ tag, getWebSockets (close tags state) tag = getWebSockets state tag) as Hsame.
  { intros tag. unfold getWebSockets, close. rewrite length_close_each.
    apply List.filter_ext. intros w. rewrite close_each.
    by destruct (sockets state !! w). }
  destruct selected as [|ts]; cbn [resolve]; [apply Hsame|].
  apply flat_map_ext. intros t. apply Hsame.
Qed.

(** X23. A broadcast to connections that have just been closed throws.  After
    [close(tags)], the runtime still reports the connections, so when the
    selector resolves to any connection at all, [sendTo(tags, message)]
    throws the TypeError of the first [send], and no connection is sent the
    message. *)
Theorem broadcast_after_close_throws (state : DurableObjectState) (tags : selector)
    (msg : message) :
  resolve state tags ≠ [] →
  resolve (close tags state) tags = resolve state tags ∧
  (∃ text, fst (sendTo tags msg (close tags state)) = Throw (TypeError text)) ∧
  snd (sendTo tags msg (close tags state)) = close tags state.
Proof.
  intros Hsome. split; [apply resolve_close|].
  unfold sendTo. rewrite resolve_close.
  destruct (resolve state tags) as [|v after] eqn:Hresolve; [done|].
  assert (In v (resolve state tags)) as Hin by (rewrite Hresolve; by left).
  apply In_resolve, In_getWebSockets in Hin as (vs & Hv & _).
  assert (sockets (close tags state) !! v
          = Some (closed (visits state tags v) vs)) as Hclosed.
  { unfold close, visits. by rewrite close_each, Hv. }
  assert (visits state tags v ≠ 0)%nat as Hvisited.
  { unfold visits. rewrite Hresolve. cbn [count_occ].
    by destruct (Nat.eq_dec v v). }
  cbn [forEach_send]. unfold ws_send. rewrite Hclosed.
  destruct (ws_closes (closed (visits state tags v) vs) =? 0)%nat eqn:Hzero.
  - apply Nat.eqb_eq in Hzero. unfold closed in Hzero. cbn in Hzero. lia.
  - split; [by eexists|done].
Qed.

Import Sample.

Lemma broadcasts_compose_witness :
  resolve (snd (sendTo (Tags ["x"]) (Text "one") lobby)) All = resolve lobby All ∧
  fst (sendTo (Tags ["x"]) (Text "one") lobby) = Return tt ∧
  fst (sendTo All (Text "two") (snd (sendTo (Tags ["x"]) (Text "one") lobby)))
  = Return tt ∧
  ws_outbox <$> sockets (snd (sendTo All (Text "two")
                                (snd (sendTo (Tags ["x"]) (Text "one") lobby))))
                  !! 0%nat
  = Some ([] ++ replicate (visits lobby (Tags ["x"]) 0) (Text "one")
             ++ replicate (visits lobby All 0) (Text "two")).
Proof.
  apply (broadcasts_compose lobby (Tags ["x"]) All (Text "one") (Text "two") 0
           {| ws_tags := Some ["x"; "y"]; ws_attachment := Some ["x"; "y"];
              ws_outbox := []; ws_closes := 0 |}).
  - reflexivity.
  - apply lobby_open.
  - apply lobby_open.
Defined.

Lemma accepted_connection_is_reached_witness :
  let state' := snd (upgrade (fun _ => Some ["room"]) upgrading lobby) in
  fst (sendTo (Tags ["room"]) (Text "hi") state') = Return tt ∧
  fst (sendTo All (Text "hi") state') = Return tt ∧
  ws_outbox <$> sockets (snd (sendTo (Tags ["room"]) (Text "hi") state')) !! 4%nat
  = Some [Text "hi"] ∧
  ws_outbox <$> sockets (snd (sendTo All (Text "hi") state')) !! 4%nat
  = Some [Text "hi"] ∧
  ws_outbox <$> sockets (snd (sendTo (Tags ["room"]) (Text "hi") state')) !! 3%nat
  = Some [] ∧
  ws_outbox <$> sockets (snd (sendTo All (Text "hi") state')) !! 3%nat = Some [].
Proof.
  apply (accepted_connection_is_reached (fun _ => Some ["room"]) upgrading lobby
           ["room"] "room" (Text "hi")).
  - vm_compute; reflexivity.
  - reflexivity.
  - constructor.
  - apply lobby_open.
Defined.

Lemma broadcast_after_close_throws_witness :
  resolve (close (Tags ["y"]) lobby) (Tags ["y"]) = resolve lobby (Tags ["y"]) ∧
  (∃ text, fst (sendTo (Tags ["y"]) (Text "hi") (close (Tags ["y"]) lobby))
           = Throw (TypeError text)) ∧
  snd (sendTo (Tags ["y"]) (Text "hi") (close (Tags ["y"]) lobby))
  = close (Tags ["y"]) lobby.
Proof.
  apply (broadcast_after_close_throws lobby (Tags ["y"]) (Text "hi")).
  vm_compute. discriminate.
Defined.

End BroadcastMore.
